(** * argo-renderer: the application-descriptor resolver and the render
      orchestrator

    A shallow embedding of [internal/pkg/argo/parser.go], of the orchestrator
    ([Run], [processApplication], [convertHTTPtoSSH]) and of
    [internal/pkg/git/git.go], followed by the properties of the
    specification that were checked against them.

    Go strings are byte strings: they are embedded as [string] (a list of
    8-bit [ascii]).  Go's [int] is taken to be 64 bits wide.  Go maps are
    [gmap string string]; a map that may be [nil] is an [option] of one.
    Log output is not part of the embedding: no result depends on it. *)

From Stdlib Require Import ZArith Lia Ascii String.
From stdpp Require Import base tactics option list sorting strings gmap pretty.

Local Open Scope string_scope.
Local Open Scope Z_scope.

(** ** Results of fallible functions: Go's [(value, error)] pairs *)

Inductive result (E A : Type) : Type :=
| Ok (a : A)
| Err (e : E).
Arguments Ok {E A} a.
Arguments Err {E A} e.

Definition is_Ok {E A} (r : result E A) : Prop :=
  match r with Ok _ => True | Err _ => False end.

Definition is_Err {E A} (r : result E A) : Prop :=
  match r with Ok _ => False | Err _ => True end.

(** ** The functions of Go's [strings] package that the code calls *)

Module Strings.

(** [strings.HasPrefix(s, prefix)] *)
Fixpoint HasPrefix (s prefix : string) : bool :=
  match prefix, s with
  | EmptyString, _ => true
  | String _ _, EmptyString => false
  | String c prefix', String d s' =>
      if Ascii.eqb c d then HasPrefix s' prefix' else false
  end.

(** [s[n:]] *)
Fixpoint drop (n : nat) (s : string) : string :=
  match n, s with
  | O, _ => s
  | S _, EmptyString => EmptyString
  | S n', String _ s' => drop n' s'
  end.

(** [strings.TrimPrefix(s, prefix)]: [s] without the leading [prefix],
    [s] itself when it does not start with [prefix]. *)
Definition TrimPrefix (s prefix : string) : string :=
  if HasPrefix s prefix then drop (String.length prefix) s else s.

(** [strings.Cut(s, sep)] for a one-byte separator: the text before and
    after the first [sep], and whether [sep] occurs. *)
Fixpoint Cut (s : string) (sep : ascii) : string * string * bool :=
  match s with
  | EmptyString => (EmptyString, EmptyString, false)
  | String c s' =>
      if Ascii.eqb c sep then (EmptyString, s', true)
      else
        let '(before, after, found) := Cut s' sep in
        if found then (String c before, after, true)
        else (s, EmptyString, false)
  end.

(** [strings.SplitN(s, sep, 2)] for a one-byte separator: [[s]] when
    [sep] does not occur, else the two parts around its first occurrence. *)
Definition SplitN2 (s : string) (sep : ascii) : list string :=
  let '(before, after, found) := Cut s sep in
  if found then [before; after] else [s].

(** [strings.Contains(s, string(c))] *)
Fixpoint ContainsByte (s : string) (c : ascii) : bool :=
  match s with
  | EmptyString => false
  | String d s' => if Ascii.eqb d c then true else ContainsByte s' c
  end.

(** [s[:n]] *)
Fixpoint take (n : nat) (s : string) : string :=
  match n, s with
  | O, _ => EmptyString
  | S _, EmptyString => EmptyString
  | S n', String c s' => String c (take n' s')
  end.

(** [strings.Index(s, substr)]; [None] is Go's [-1]. *)
Fixpoint Index (s substr : string) : option nat :=
  if HasPrefix s substr then Some O
  else
    match s with
    | EmptyString => None
    | String _ s' => S <$> Index s' substr
    end.

(** [strings.LastIndex(s, string(c))]; [None] is Go's [-1]. *)
Fixpoint LastIndexByte (s : string) (c : ascii) : option nat :=
  match s with
  | EmptyString => None
  | String d s' =>
      match LastIndexByte s' c with
      | Some i => Some (S i)
      | None => if Ascii.eqb d c then Some O else None
      end
  end.

(** [strings.ToLower(s)] on ASCII letters, all a URL scheme holds. *)
Definition lowerByte (c : ascii) : ascii :=
  let n := N_of_ascii c in
  if bool_decide (65 ≤ n ≤ 90)%N then ascii_of_N (n + 32) else c.

Fixpoint ToLower (s : string) : string :=
  match s with
  | EmptyString => EmptyString
  | String c s' => String (lowerByte c) (ToLower s')
  end.

(** [strings.Join(elems, sep)] *)
Fixpoint Join (elems : list string) (sep : string) : string :=
  match elems with
  | [] => EmptyString
  | [e] => e
  | e :: elems' => e +:+ sep +:+ Join elems' sep
  end.

(** [strings.Split(s, string(sep))] *)
Fixpoint Split (s : string) (sep : ascii) : list string :=
  match s with
  | EmptyString => [EmptyString]
  | String c s' =>
      if Ascii.eqb c sep then EmptyString :: Split s' sep
      else
        match Split s' sep with
        | [] => [String c EmptyString]
        | e :: elems => String c e :: elems
        end
  end.

End Strings.

(** ** [strconv.Atoi] *)

Module Strconv.

Definition intSize : Z := 64.
Definition maxInt : Z := 2 ^ (intSize - 1) - 1.
Definition minInt : Z := - 2 ^ (intSize - 1).

Definition digit (ch : ascii) : option Z :=
  let n := Z.of_N (N_of_ascii ch) in
  if bool_decide (48 ≤ n ≤ 57) then Some (n - 48) else None.

(** The digit loop: [n = n*10 + int(ch)], a syntax error on any byte
    that is not a decimal digit. *)
Fixpoint digits (s : string) (n : Z) : option Z :=
  match s with
  | EmptyString => Some n
  | String ch s' =>
      match digit ch with
      | Some d => digits s' (n * 10 + d)
      | None => None
      end
  end.

(** [strconv.Atoi(s)]: an optional sign, then one or more decimal digits,
    the value within the range of [int]; [None] stands for the returned
    error (a syntax error or a range error).  The fast path for short
    strings and [ParseInt(s, 10, 0)] accept the same strings with the same
    values, so one definition covers both. *)
Definition Atoi (s : string) : option Z :=
  match s with
  | EmptyString => None
  | String c rest =>
      let neg := Ascii.eqb c "-" in
      let body := if neg || Ascii.eqb c "+" then rest else s in
      match body with
      | EmptyString => None
      | _ =>
          match digits body 0 with
          | Some n =>
              let v := if neg then - n else n in
              if bool_decide (minInt ≤ v ≤ maxInt) then Some v else None
          | None => None
          end
      end
  end.

End Strconv.

(** ** [sort.Slice] *)

Module Sort.

(** [sort.Slice(x, less)] rearranges [x] in place; here it returns the
    rearranged slice.  The library documents that the result is sorted by
    [less] and that the sort is not guaranteed to be stable; which
    algorithm runs depends on the Go release and on the length. *)
Class SliceSort : Type :=
  Slice : ∀ A : Type, (A → A → bool) → list A → list A.
Arguments Slice {_ _} less x.

(** What the library promises of [sort.Slice] when [less] compares an
    integer key: the result is a rearrangement of the input, ascending in
    the key. *)
Class SliceSortSpec (S : SliceSort) : Prop := {
  Slice_perm : ∀ (A : Type) (less : A → A → bool) (x : list A),
    Slice less x ≡ₚ x;
  Slice_sorted : ∀ (A : Type) (key : A → Z) (x : list A),
    StronglySorted (λ a b, key a ≤ key b)
      (Slice (λ a b, bool_decide (key a < key b)) x)
}.

(** [insertionSortLessFunc], the algorithm [sort.Slice] runs on short
    slices: each element in turn is swapped towards the front while it is
    [less] than its left neighbour.  [insertBack] works on the reversed
    prefix, whose head is that left neighbour. *)
Fixpoint insertBack {A} (less : A → A → bool) (v : A) (rprefix : list A)
  : list A :=
  match rprefix with
  | [] => [v]
  | u :: rprefix' =>
      if less v u then u :: insertBack less v rprefix'
      else v :: rprefix
  end.

Definition insertionSort {A} (less : A → A → bool) (x : list A) : list A :=
  rev (fold_left (λ rprefix v, insertBack less v rprefix) x []).

#[global] Instance insertionSlice : SliceSort := @insertionSort.

(** Another sort that keeps the library's promise: insertion sort run on
    the slice read backwards.  It is here to show what the promise leaves
    open, not as an algorithm of the library. *)
Definition reversingSlice : SliceSort :=
  λ A less x, insertionSort less (rev x).

End Sort.

(** ** [internal/pkg/argo/parser.go] *)

Module Argo.
Import Sort.

Module EnvVar.
Record EnvVar : Type := { Name : string; Value : string }.
End EnvVar.
Abbreviation EnvVar := EnvVar.EnvVar.

(** [rawApplication]; its anonymous nested structs get a type name each,
    the fields keep theirs.  [Plugin] is a pointer: [None] is [nil]. *)
Module rawApplication.
Record metadata : Type := {
  Name : string;
  Labels : option (gmap string string);
  Annotations : option (gmap string string)
}.
Record plugin : Type := { Env : list EnvVar }.
Record source : Type := {
  RepoURL : string;
  TargetRevision : string;
  Path : string;
  Plugin : option plugin
}.
Record spec : Type := { Source : source }.
Record rawApplication : Type := {
  ApiVersion : string;
  Kind : string;
  Metadata : metadata;
  Spec : spec
}.
End rawApplication.
Abbreviation rawApplication := rawApplication.rawApplication.

(** [Application].  [Setters] is the field [processApplication] reads
    ([app.Setters]) and the parser's tests compare; the struct declared in
    parser.go has the eight fields before it and [newApplicationFromRaw]
    assigns to none other, so [Setters] is carried at the zero value it
    would have, the [nil] map. *)
Module Application.
Record Application : Type := {
  Name : string;
  Instance : string;
  Env : string;
  RepoURL : string;
  Path : string;
  TargetRevision : string;
  PluginEnv : list EnvVar;
  ValuesFiles : list string;
  Setters : option (gmap string string)
}.
End Application.
Abbreviation Application := Application.Application.

(** The errors the package builds with [fmt.Errorf], and the text
    [err.Error()] gives for each.  A decoding error of the YAML library is
    kept as its text. *)
Inductive error : Type :=
| ConflictInstance (label plugin : string)
| ConflictEnv (label plugin : string)
| RepoEmpty
| DecodeFailed (cause : string)
| InvalidApplication (name : string) (cause : error).

Fixpoint Error (e : error) : string :=
  (match e with
   | ConflictInstance label plugin =>
       "conflicting values for 'instance': label is '" +:+ label +:+
       "', plugin.env is '" +:+ plugin +:+ "'"
   | ConflictEnv label plugin =>
       "conflicting values for 'env': label is '" +:+ label +:+
       "', plugin.env is '" +:+ plugin +:+ "'"
   | RepoEmpty =>
       "both 'rawRepository' annotation and 'spec.source.repoURL' are empty"
   | DecodeFailed cause => "failed to decode yaml document: " +:+ cause
   | InvalidApplication name cause =>
       "application '" +:+ name +:+ "' is invalid: " +:+ Error cause
   end)%string.

(** The two-valued index expression [val, ok := m[k]]; reading a [nil]
    map gives the zero value and [false]. *)
Definition mapIndex (m : option (gmap string string)) (k : string)
  : string * bool :=
  match m with
  | Some m' =>
      match m' !! k with
      | Some val => (val, true)
      | None => ("", false)
      end
  | None => ("", false)
  end.

Definition extractValueFromWerfSet (s : string) : string :=
  let parts := Strings.SplitN2 s "=" in
  if bool_decide (length parts = 2%nat) then default "" (parts !! 1%nat)
  else "".

Record indexedValueFile : Type := { index : Z; path : string }.

(** The variables the loop over [raw.Spec.Source.Plugin.Env] updates. *)
Record envLoop : Type := {
  instanceFromPlugin : string;
  envFromPlugin : string;
  remainingPluginEnv : list EnvVar;
  indexedValues : list indexedValueFile
}.

Definition envLoopInit : envLoop :=
  {| instanceFromPlugin := ""; envFromPlugin := "";
     remainingPluginEnv := []; indexedValues := [] |}.

(** One iteration: the [switch] on [envVar.Name]. *)
Definition envLoopBody (st : envLoop) (envVar : EnvVar) : envLoop :=
  if bool_decide (EnvVar.Name envVar = "WERF_SET_INSTANCE") then
    {| instanceFromPlugin := extractValueFromWerfSet (EnvVar.Value envVar);
       envFromPlugin := envFromPlugin st;
       remainingPluginEnv := remainingPluginEnv st ++ [envVar];
       indexedValues := indexedValues st |}
  else if bool_decide (EnvVar.Name envVar = "WERF_SET_ENV") then
    {| instanceFromPlugin := instanceFromPlugin st;
       envFromPlugin := extractValueFromWerfSet (EnvVar.Value envVar);
       remainingPluginEnv := remainingPluginEnv st ++ [envVar];
       indexedValues := indexedValues st |}
  else if Strings.HasPrefix (EnvVar.Name envVar) "WERF_VALUES_" then
    let indexStr := Strings.TrimPrefix (EnvVar.Name envVar) "WERF_VALUES_" in
    match Strconv.Atoi indexStr with
    | None => st
    | Some index =>
        {| instanceFromPlugin := instanceFromPlugin st;
           envFromPlugin := envFromPlugin st;
           remainingPluginEnv := remainingPluginEnv st;
           indexedValues :=
             indexedValues st
             ++ [{| index := index; path := EnvVar.Value envVar |}] |}
    end
  else
    {| instanceFromPlugin := instanceFromPlugin st;
       envFromPlugin := envFromPlugin st;
       remainingPluginEnv := remainingPluginEnv st ++ [envVar];
       indexedValues := indexedValues st |}.

Definition envLoopRun (raw : rawApplication) : envLoop :=
  match rawApplication.Plugin
          (rawApplication.Source (rawApplication.Spec raw)) with
  | Some plugin => fold_left envLoopBody (rawApplication.Env plugin) envLoopInit
  | None => envLoopInit
  end.

Definition labelOf (raw : rawApplication) (k : string) : string :=
  match rawApplication.Labels (rawApplication.Metadata raw) with
  | Some labels =>
      match labels !! k with
      | Some val => val
      | None => ""
      end
  | None => ""
  end.

Definition newApplicationFromRaw `{SliceSort} (raw : rawApplication)
  : result error Application :=
  let metadata := rawApplication.Metadata raw in
  let source := rawApplication.Source (rawApplication.Spec raw) in
  let instanceFromLabel := labelOf raw "instance" in
  let envFromLabel := labelOf raw "env" in
  let st := envLoopRun raw in
  let PluginEnv := remainingPluginEnv st in
  let sorted :=
    Slice (λ i j, bool_decide (index i < index j)) (indexedValues st) in
  let ValuesFiles := path <$> sorted in
  if bool_decide (instanceFromLabel ≠ "")
     && bool_decide (instanceFromPlugin st ≠ "")
     && bool_decide (instanceFromLabel ≠ instanceFromPlugin st)
  then Err (ConflictInstance instanceFromLabel (instanceFromPlugin st))
  else
    let Instance :=
      if bool_decide (instanceFromLabel ≠ "") then instanceFromLabel
      else instanceFromPlugin st in
    if bool_decide (envFromLabel ≠ "")
       && bool_decide (envFromPlugin st ≠ "")
       && bool_decide (envFromLabel ≠ envFromPlugin st)
    then Err (ConflictEnv envFromLabel (envFromPlugin st))
    else
      let Env :=
        if bool_decide (envFromLabel ≠ "") then envFromLabel
        else envFromPlugin st in
      let '(annRepo, ok) :=
        mapIndex (rawApplication.Annotations metadata) "rawRepository" in
      let repoURL :=
        if negb ok || bool_decide (annRepo = "")
        then rawApplication.RepoURL source else annRepo in
      if (negb ok || bool_decide (annRepo = ""))
         && bool_decide (repoURL = "")
      then Err RepoEmpty
      else
        let '(annPath, ok) :=
          mapIndex (rawApplication.Annotations metadata) "rawPath" in
        let path :=
          if negb ok then
            if bool_decide (rawApplication.Path source = "") then "."
            else rawApplication.Path source
          else annPath in
        Ok {| Application.Name := rawApplication.Name metadata;
              Application.Instance := Instance;
              Application.Env := Env;
              Application.RepoURL := repoURL;
              Application.Path := path;
              Application.TargetRevision :=
                rawApplication.TargetRevision source;
              Application.PluginEnv := PluginEnv;
              Application.ValuesFiles := ValuesFiles;
              Application.Setters := None |}.

Definition isApplication (rawApp : rawApplication) : bool :=
  bool_decide (rawApplication.ApiVersion rawApp = "argoproj.io/v1alpha1")
  && bool_decide (rawApplication.Kind rawApp = "Application").

(** The [for] loop of [ParseApplications].  [decoder] is the YAML decoder
    over [yamlData], given as the results its successive [Decode] calls
    return before [io.EOF]: a decoded document, or an error with its
    text.  The pair is Go's [([]Application, error)]; a [nil] slice is
    [[]]. *)
Fixpoint decodeLoop `{SliceSort}
    (decoder : list (result string rawApplication))
    (finalApps : list Application) : list Application * option error :=
  match decoder with
  | [] => (finalApps, None)
  | Err err :: _ => ([], Some (DecodeFailed err))
  | Ok rawApp :: decoder' =>
      if isApplication rawApp then
        match newApplicationFromRaw rawApp with
        | Err err =>
            ([], Some (InvalidApplication
                         (rawApplication.Name (rawApplication.Metadata rawApp))
                         err))
        | Ok cleanApp => decodeLoop decoder' (finalApps ++ [cleanApp])
        end
      else decodeLoop decoder' finalApps
  end.

Definition ParseApplications `{SliceSort}
    (decoder : list (result string rawApplication))
  : list Application * option error :=
  decodeLoop decoder [].

End Argo.

(** [x ← r; k] on results: an error ends the computation, as the
    [if err != nil { return ..., err }] after a call does. *)
#[global] Instance result_bind {E} : MBind (result E) :=
  λ A B f r, match r with Ok a => f a | Err e => Err e end.

(** ** [net/url]: [url.Parse], as far as [Scheme], [Host] and [Path] go

    The orchestrator reads these three fields of the parsed URL.  The
    definitions follow the library function by function (Go 1.21); the user
    information, the query and the fragment are checked as the library
    checks them and then dropped. *)

Module Url.

Record URL : Type := {
  Scheme : string;
  Opaque : string;
  Host : string;
  Path : string
}.

Inductive error : Type :=
| InvalidControlCharacter
| MissingProtocolScheme
| FirstPathSegmentColon
| MissingBracket
| InvalidPort (colonPort : string)
| InvalidUserinfo
| EscapeError (s : string)
| InvalidHostError (s : string).

Inductive encoding : Type :=
| encodePath | encodeHost | encodeZone | encodeUserPassword | encodeFragment.

#[global] Instance encoding_eq_dec : EqDecision encoding.
Proof. solve_decision. Defined.

Definition byte (c : ascii) : N := N_of_ascii c.

Definition between (lo hi c : ascii) : bool :=
  (byte lo <=? byte c)%N && (byte c <=? byte hi)%N.

Definition isLetter (c : ascii) : bool :=
  between "a" "z" c || between "A" "Z" c.

Definition isDigit (c : ascii) : bool := between "0" "9" c.

Fixpoint stringContainsCTLByte (s : string) : bool :=
  match s with
  | EmptyString => false
  | String b s' =>
      (byte b <? 32)%N || (byte b =? 127)%N || stringContainsCTLByte s'
  end.

(** [getScheme]: [s] is [rawURL[i:]]. *)
Fixpoint getSchemeFrom (rawURL : string) (i : nat) (s : string)
  : result error (string * string) :=
  match s with
  | EmptyString => Ok (EmptyString, rawURL)
  | String c s' =>
      if isLetter c then getSchemeFrom rawURL (S i) s'
      else if isDigit c || Ascii.eqb c "+" || Ascii.eqb c "-"
              || Ascii.eqb c "."
      then
        match i with
        | O => Ok (EmptyString, rawURL)
        | S _ => getSchemeFrom rawURL (S i) s'
        end
      else if Ascii.eqb c ":" then
        match i with
        | O => Err MissingProtocolScheme
        | S _ => Ok (Strings.take i rawURL, s')
        end
      else Ok (EmptyString, rawURL)
  end.

Definition getScheme (rawURL : string) : result error (string * string) :=
  getSchemeFrom rawURL O rawURL.

Definition ishex (c : ascii) : bool :=
  isDigit c || between "a" "f" c || between "A" "F" c.

Definition unhex (c : ascii) : N :=
  if isDigit c then byte c - byte "0"
  else if between "a" "f" c then byte c - byte "a" + 10
  else if between "A" "F" c then byte c - byte "A" + 10
  else 0.

(** [shouldEscape(c, encodeHost)] *)
Definition shouldEscapeHost (c : ascii) : bool :=
  if isLetter c || isDigit c then false
  else if Strings.ContainsByte "!$&'()*+,;=:[]<>" c
          || Ascii.eqb c "034" then false
  else if Strings.ContainsByte "-_.~" c then false
  else true.

(** [unescape(s, mode)]: the check of every escape and host byte, and the
    decoding of the escapes, in one pass from the left. *)
Fixpoint unescape (s : string) (mode : encoding) : result error string :=
  match s with
  | EmptyString => Ok EmptyString
  | String c s' =>
      if Ascii.eqb c "%" then
        match s' with
        | String a (String b rest) =>
            if ishex a && ishex b then
              let esc := String c (String a (String b EmptyString)) in
              let v := ascii_of_N (unhex a * 16 + unhex b) in
              if bool_decide (mode = encodeHost) && (unhex a <? 8)%N
                 && negb (String.eqb esc "%25")
              then Err (EscapeError esc)
              else if bool_decide (mode = encodeZone)
                      && negb (String.eqb esc "%25")
                      && negb (Ascii.eqb v " ") && shouldEscapeHost v
              then Err (EscapeError esc)
              else t ← unescape rest mode; Ok (String v t)
            else Err (EscapeError (Strings.take 3 s))
        | _ => Err (EscapeError (Strings.take 3 s))
        end
      else if (bool_decide (mode = encodeHost)
               || bool_decide (mode = encodeZone))
              && (byte c <? 128)%N && shouldEscapeHost c
      then Err (InvalidHostError (String c EmptyString))
      else t ← unescape s' mode; Ok (String c t)
  end.

Definition validOptionalPort (port : string) : bool :=
  match port with
  | EmptyString => true
  | String c ds =>
      Ascii.eqb c ":" && forallb isDigit (list_ascii_of_string ds)
  end.

Definition validUserinfo (s : string) : bool :=
  forallb (λ r, isLetter r || isDigit r
                || Strings.ContainsByte "-._:~!$&'()*+,;=%@" r)
    (list_ascii_of_string s).

Definition parseHost (host : string) : result error string :=
  if Strings.HasPrefix host "[" then
    match Strings.LastIndexByte host "]" with
    | None => Err MissingBracket
    | Some i =>
        let colonPort := Strings.drop (S i) host in
        if negb (validOptionalPort colonPort) then Err (InvalidPort colonPort)
        else
          match Strings.Index (Strings.take i host) "%25" with
          | Some zone =>
              host1 ← unescape (Strings.take zone host) encodeHost;
              host2 ← unescape (Strings.drop zone (Strings.take i host))
                        encodeZone;
              host3 ← unescape (Strings.drop i host) encodeHost;
              Ok (host1 +:+ host2 +:+ host3)
          | None => unescape host encodeHost
          end
    end
  else
    match Strings.LastIndexByte host ":" with
    | Some i =>
        let colonPort := Strings.drop i host in
        if negb (validOptionalPort colonPort) then Err (InvalidPort colonPort)
        else unescape host encodeHost
    | None => unescape host encodeHost
    end.

(** [parseAuthority], returning the host. *)
Definition parseAuthority (authority : string) : result error string :=
  match Strings.LastIndexByte authority "@" with
  | None => parseHost authority
  | Some i =>
      host ← parseHost (Strings.drop (S i) authority);
      let userinfo := Strings.take i authority in
      if negb (validUserinfo userinfo) then Err InvalidUserinfo
      else if negb (Strings.ContainsByte userinfo ":") then
        _ ← unescape userinfo encodeUserPassword; Ok host
      else
        let '(username, password, _) := Strings.Cut userinfo ":" in
        _ ← unescape username encodeUserPassword;
        _ ← unescape password encodeUserPassword;
        Ok host
  end.

(** [parse(rawURL, false)] *)
Definition parse (rawURL : string) : result error URL :=
  if stringContainsCTLByte rawURL then Err InvalidControlCharacter
  else if String.eqb rawURL "*" then
    Ok {| Scheme := ""; Opaque := ""; Host := ""; Path := "*" |}
  else
    sr ← getScheme rawURL;
    let scheme := Strings.ToLower sr.1 in
    let rest := (Strings.Cut sr.2 "?").1.1 in
    if negb (Strings.HasPrefix rest "/") && negb (String.eqb scheme "") then
      Ok {| Scheme := scheme; Opaque := rest; Host := ""; Path := "" |}
    else if negb (Strings.HasPrefix rest "/")
            && Strings.ContainsByte (Strings.Cut rest "/").1.1 ":"
    then Err FirstPathSegmentColon
    else if (negb (String.eqb scheme "")
             || negb (Strings.HasPrefix rest "///"))
            && Strings.HasPrefix rest "//"
    then
      let authority := Strings.drop 2 rest in
      let '(authority, rest) :=
        match Strings.Index authority "/" with
        | Some i => (Strings.take i authority, Strings.drop i authority)
        | None => (authority, EmptyString)
        end in
      host ← parseAuthority authority;
      path ← unescape rest encodePath;
      Ok {| Scheme := scheme; Opaque := ""; Host := host; Path := path |}
    else
      path ← unescape rest encodePath;
      Ok {| Scheme := scheme; Opaque := ""; Host := ""; Path := path |}.

(** [url.Parse(rawURL)] *)
Definition Parse (rawURL : string) : result error URL :=
  let '(u, frag, _) := Strings.Cut rawURL "#" in
  url ← parse u;
  if String.eqb frag "" then Ok url
  else _ ← unescape frag encodeFragment; Ok url.

End Url.

(** ** [path/filepath]: [filepath.Join] with [/] as the separator *)

Module Filepath.

(** The elements of a cleaned path, [out] holding them last first: empty
    and [.] elements go, [..] removes the element before it, is dropped at
    the root and is kept at the front of a relative path. *)
Fixpoint cleanElements (rooted : bool) (elems out : list string)
  : list string :=
  match elems with
  | [] => rev out
  | e :: elems' =>
      if String.eqb e "" || String.eqb e "." then
        cleanElements rooted elems' out
      else if String.eqb e ".." then
        match out with
        | top :: out' =>
            if String.eqb top ".." then cleanElements rooted elems' (e :: out)
            else cleanElements rooted elems' out'
        | [] =>
            if rooted then cleanElements rooted elems' out
            else cleanElements rooted elems' [e]
        end
      else cleanElements rooted elems' (e :: out)
  end.

(** [filepath.Clean(path)] *)
Definition Clean (path : string) : string :=
  if String.eqb path "" then "."
  else
    let rooted := Strings.HasPrefix path "/" in
    let out := cleanElements rooted (Strings.Split path "/") [] in
    if rooted then "/" +:+ Strings.Join out "/"
    else
      match out with
      | [] => "."
      | _ => Strings.Join out "/"
      end.

(** [filepath.Join(elem...)]: leading empty elements are ignored, the
    rest is joined with the separator and cleaned. *)
Fixpoint Join (elem : list string) : string :=
  match elem with
  | [] => EmptyString
  | e :: elem' =>
      if String.eqb e "" then Join elem'
      else Clean (Strings.Join elem "/")
  end.

End Filepath.

(** ** [internal/pkg/git/git.go] *)

Module Git.

(** The [git.CloneOptions] that [Clone] fills in. *)
Record CloneOptions : Type := {
  URL : string;
  ReferenceName : string;
  SingleBranch : bool;
  Depth : Z
}.

(** [plumbing.NewBranchReferenceName(name)] *)
Definition NewBranchReferenceName (name : string) : string :=
  "refs/heads/" +:+ name.

(** The options [Clone(repoURL, revision, targetPath)] hands to
    [git.PlainClone(targetPath, false, opts)]. *)
Definition cloneOptions (repoURL revision : string) : CloneOptions :=
  {| URL := repoURL;
     ReferenceName := NewBranchReferenceName revision;
     SingleBranch := true;
     Depth := 1 |}.

End Git.

(** ** The orchestrator: [Run], [processApplication], [convertHTTPtoSSH] *)

Module App.
Import Argo.

(** [url.Parse], as the orchestrator sees it.  [netURL] is the library
    function modelled above. *)
Class UrlParse : Type :=
  url_Parse : string → result Url.error Url.URL.

#[global] Instance netURL : UrlParse := Url.Parse.

Inductive error : Type :=
| CouldNotParseURL (cause : Url.error)
| InvalidRepoURL (repoURL : string) (cause : error)
| CloneFailed (cause : string)
| RenderFailed (cause : string)
| MkdirFailed (dir cause : string)
| WriteFailed (file cause : string)
| ProcessFailed (count : nat) (first : error).

Definition convertHTTPtoSSH `{UrlParse} (httpURL : string)
  : result error string :=
  if Strings.HasPrefix httpURL "git@" then Ok httpURL
  else
    match url_Parse httpURL with
    | Err err => Err (CouldNotParseURL err)
    | Ok parsedURL =>
        if negb (String.eqb (Url.Scheme parsedURL) "https")
           && negb (String.eqb (Url.Scheme parsedURL) "http")
        then Ok httpURL
        else
          let path := Strings.TrimPrefix (Url.Path parsedURL) "/" in
          Ok ("git@" +:+ Url.Host parsedURL +:+ ":" +:+ path)
    end.

(** [appState]; the mutex [mu] is what makes each locked region below one
    step. *)
Record appState : Type := {
  tempDir : string;
  outputDir : string;
  clonedRepos : gmap string string;
  cloneCounter : Z
}.

(** [helm.RenderOptions] *)
Record RenderOptions : Type := {
  ReleaseName : string;
  ChartPath : string;
  ValuesFiles : list string;
  SetValues : gmap string string
}.

(** The override values [processApplication] builds before it clones:
    [app.Setters], an empty map in place of [nil], then [global.instance]
    and [global.env] written over it. *)
Definition werfSetValues (app : Application) : gmap string string :=
  let m0 := default ∅ (Application.Setters app) in
  let m1 :=
    if bool_decide (Application.Instance app ≠ "")
    then <["global.instance" := Application.Instance app]> m0 else m0 in
  if bool_decide (Application.Env app ≠ "")
  then <["global.env" := Application.Env app]> m1 else m1.

(** [fmt.Sprintf("%s@%s", sshURL, app.TargetRevision)] *)
Definition cacheKey (sshURL : string) (app : Application) : string :=
  sshURL +:+ "@" +:+ Application.TargetRevision app.

(** The options of the child render, from the clone's path. *)
Definition appOpts (app : Application) (repoPath : string) : RenderOptions :=
  let appServicePath := Filepath.Join [repoPath; Application.Path app] in
  {| ReleaseName := Application.Name app;
     ChartPath := Filepath.Join [appServicePath; ".helm"];
     ValuesFiles :=
       (λ file, Filepath.Join [appServicePath; file])
         <$> Application.ValuesFiles app;
     SetValues := werfSetValues app |}.

Definition finalOutputDir (st : appState) (app : Application) : string :=
  let d0 := outputDir st in
  let d1 :=
    if bool_decide (Application.Env app ≠ "")
    then Filepath.Join [d0; Application.Env app] else d0 in
  if bool_decide (Application.Instance app ≠ "")
  then Filepath.Join [d1; Application.Instance app] else d1.

Definition outputFile (st : appState) (app : Application) : string :=
  Filepath.Join [finalOutputDir st app; Application.Name app +:+ ".yaml"].

(** The calls that leave the program, in the order they are made. *)
Inductive call : Type :=
| GitClone (repoURL revision targetPath : string) (opts : Git.CloneOptions)
| HelmTemplate (opts : RenderOptions)
| MkdirAll (dir : string)
| WriteFile (file data : string).

(** Where one [processApplication] call stands.  Each constructor is a
    point at which the goroutine may be overtaken by another: before the
    first lock, between two locked regions, before a call that leaves the
    program. *)
Inductive worker : Type :=
| Queued (app : Application)
| Lookup (app : Application) (sshURL : string)
| Reserve (app : Application) (sshURL : string)
| Cloning (app : Application) (sshURL repoPath : string)
| Caching (app : Application) (sshURL repoPath : string)
| Rendering (app : Application) (repoPath : string)
| MakingDir (app : Application) (renderedApp : string)
| Writing (app : Application) (renderedApp : string)
| Done
| Failed (err : error).

Definition finished (w : worker) : bool :=
  match w with Done | Failed _ => true | _ => false end.

(** What a call that leaves the program answers: [Ok data] ([data] is the
    rendered manifest for [helm.Template], unused otherwise) or an error
    text. *)
Definition answer : Type := result string string.

(** One step of [processApplication]: the new place of the worker, the
    shared state after it, and the call made, if any.  [ans] is read only
    by the steps that make a call. *)
Definition processStep `{UrlParse} (w : worker) (ans : answer) (st : appState)
  : worker * appState * list call :=
  match w with
  | Queued app =>
      match convertHTTPtoSSH (Application.RepoURL app) with
      | Err err => (Failed (InvalidRepoURL (Application.RepoURL app) err), st, [])
      | Ok sshURL => (Lookup app sshURL, st, [])
      end
  | Lookup app sshURL =>
      match clonedRepos st !! cacheKey sshURL app with
      | Some repoPath => (Rendering app repoPath, st, [])
      | None => (Reserve app sshURL, st, [])
      end
  | Reserve app sshURL =>
      let counter := cloneCounter st + 1 in
      let repoPath := Filepath.Join [tempDir st; "clone-" +:+ pretty counter] in
      (Cloning app sshURL repoPath,
       {| tempDir := tempDir st; outputDir := outputDir st;
          clonedRepos := clonedRepos st; cloneCounter := counter |},
       [])
  | Cloning app sshURL repoPath =>
      let c := GitClone sshURL (Application.TargetRevision app) repoPath
                 (Git.cloneOptions sshURL (Application.TargetRevision app)) in
      match ans with
      | Err cause => (Failed (CloneFailed cause), st, [c])
      | Ok _ => (Caching app sshURL repoPath, st, [c])
      end
  | Caching app sshURL repoPath =>
      (Rendering app repoPath,
       {| tempDir := tempDir st; outputDir := outputDir st;
          clonedRepos := <[cacheKey sshURL app := repoPath]> (clonedRepos st);
          cloneCounter := cloneCounter st |},
       [])
  | Rendering app repoPath =>
      let c := HelmTemplate (appOpts app repoPath) in
      match ans with
      | Err cause => (Failed (RenderFailed cause), st, [c])
      | Ok renderedApp => (MakingDir app renderedApp, st, [c])
      end
  | MakingDir app renderedApp =>
      let c := MkdirAll (finalOutputDir st app) in
      match ans with
      | Err cause => (Failed (MkdirFailed (finalOutputDir st app) cause), st, [c])
      | Ok _ => (Writing app renderedApp, st, [c])
      end
  | Writing app renderedApp =>
      let c := WriteFile (outputFile st app) renderedApp in
      match ans with
      | Err cause => (Failed (WriteFailed (outputFile st app) cause), st, [c])
      | Ok _ => (Done, st, [c])
      end
  | Done => (Done, st, [])
  | Failed err => (Failed err, st, [])
  end.

Definition maxConcurrency : nat := 10.

(** [Run] after [renderAndParseAppOfApps]: the applications the [for] loop
    has yet to start, the goroutines started, the shared state, the errors
    sent to [errChan] and the calls made so far. *)
Record run : Type := {
  pending : list Application;
  workers : list worker;
  state : appState;
  errChan : list error;
  calls : list call
}.

Definition runInit (tempDir outputDir : string)
    (applications : list Application) : run :=
  {| pending := applications;
     workers := [];
     state := {| tempDir := tempDir; outputDir := outputDir;
                 clonedRepos := ∅; cloneCounter := 0 |};
     errChan := [];
     calls := [] |}.

(** What the scheduler and the outside world decide: the [for] loop
    starts the next goroutine, or goroutine [i] takes its next step and
    gets [ans] from the call it makes. *)
Inductive choice : Type :=
| Start
| Step (i : nat) (ans : answer).

Definition running (r : run) : nat :=
  length (filter (λ w, finished w = false) (workers r)).

(** One move of the whole program; [None] when the choice is not
    possible: the semaphore is full or nothing is left to start, or
    goroutine [i] does not exist or has returned. *)
Definition exec `{UrlParse} (c : choice) (r : run) : option run :=
  match c with
  | Start =>
      match pending r with
      | app :: pending' =>
          if bool_decide (running r < maxConcurrency)%nat then
            Some {| pending := pending';
                    workers := workers r ++ [Queued app];
                    state := state r;
                    errChan := errChan r;
                    calls := calls r |}
          else None
      | [] => None
      end
  | Step i ans =>
      match workers r !! i with
      | Some w =>
          if finished w then None
          else
            let '(w', st', cs) := processStep w ans (state r) in
            Some {| pending := pending r;
                    workers := <[i := w']> (workers r);
                    state := st';
                    errChan :=
                      match w' with
                      | Failed err => errChan r ++ [err]
                      | _ => errChan r
                      end;
                    calls := calls r ++ cs |}
      | None => None
      end
  end.

Fixpoint execAll `{UrlParse} (cs : list choice) (r : run) : option run :=
  match cs with
  | [] => Some r
  | c :: cs' =>
      match exec c r with
      | Some r' => execAll cs' r'
      | None => None
      end
  end.

(** [wg.Wait()] has returned: every application was started and every
    goroutine has returned. *)
Definition allDone (r : run) : bool :=
  match pending r with
  | [] => forallb finished (workers r)
  | _ => false
  end.

(** What [Run] returns once [wg.Wait()] has returned. *)
Definition runResult (r : run) : option error :=
  match errChan r with
  | [] => None
  | first :: _ => Some (ProcessFailed (length (errChan r)) first)
  end.

(** The clone calls made for one cache key. *)
Definition isCloneOf (key : string) (c : call) : bool :=
  match c with
  | GitClone repoURL revision _ _ =>
      String.eqb (repoURL +:+ "@" +:+ revision) key
  | _ => false
  end.

Definition clonesOf (key : string) (cs : list call) : list call :=
  filter (λ c, isCloneOf key c = true) cs.

End App.

(** ** The specification's words

    What the specification says of the resolver, written down on its own so
    that it can be compared with what [newApplicationFromRaw] computes. *)

Module Spec.
Import Argo.

(** The plugin environment pairs of a document, in their order. *)
Definition pluginEnvOf (raw : rawApplication) : list EnvVar :=
  match rawApplication.Plugin
          (rawApplication.Source (rawApplication.Spec raw)) with
  | Some plugin => rawApplication.Env plugin
  | None => []
  end.

(** A variable named with the indexed values-file prefix. *)
Definition hasValuesPrefix (envVar : EnvVar) : bool :=
  Strings.HasPrefix (EnvVar.Name envVar) "WERF_VALUES_".

(** The indexed values file a variable stands for: its name has the
    prefix and the rest of the name is an integer that [strconv.Atoi]
    reads. *)
Definition indexedValueOf (envVar : EnvVar) : option indexedValueFile :=
  if hasValuesPrefix envVar then
    match Strconv.Atoi
            (Strings.TrimPrefix (EnvVar.Name envVar) "WERF_VALUES_") with
    | Some i => Some {| index := i; path := EnvVar.Value envVar |}
    | None => None
    end
  else None.

(** The same with the index required to be non-negative, as the
    specification words it. *)
Definition nonNegativeIndexedValueOf (envVar : EnvVar)
  : option indexedValueFile :=
  match indexedValueOf envVar with
  | Some iv => if bool_decide (0 ≤ index iv) then Some iv else None
  | None => None
  end.

(** The value after the first [=] of the last variable named [name], the
    empty string when there is none. *)
Definition lastExtracted (name : string) (env : list EnvVar) : string :=
  match filter (λ envVar, EnvVar.Name envVar = name) env with
  | [] => ""
  | e :: es => extractValueFromWerfSet (EnvVar.Value (List.last es e))
  end.

(** A candidate value is present when it is not the empty string. *)
Definition present (candidate : string) : Prop := candidate ≠ "".

Definition conflict (label plugin : string) : Prop :=
  present label ∧ present plugin ∧ label ≠ plugin.

#[global] Instance conflict_dec label plugin : Decision (conflict label plugin).
Proof. unfold conflict, present. apply _. Defined.

(** The resolved value: the label's when present, else the plugin's
    (which is empty when neither is present). *)
Definition resolved (label plugin : string) : string :=
  if decide (label = "") then plugin else label.

Definition annotationOf (raw : rawApplication) (k : string) : option string :=
  match rawApplication.Annotations (rawApplication.Metadata raw) with
  | Some annotations => annotations !! k
  | None => None
  end.

(** The repository address by the fallback rule: the [rawRepository]
    annotation when present and non-empty, else the spec field. *)
Definition repoOf (raw : rawApplication) : string :=
  match annotationOf raw "rawRepository" with
  | Some r =>
      if decide (r = "")
      then rawApplication.RepoURL
             (rawApplication.Source (rawApplication.Spec raw))
      else r
  | None =>
      rawApplication.RepoURL (rawApplication.Source (rawApplication.Spec raw))
  end.

(** The path by the fallback rule: the [rawPath] annotation whenever the
    key exists, else the spec field, else ["."]. *)
Definition pathOf (raw : rawApplication) : string :=
  match annotationOf raw "rawPath" with
  | Some p => p
  | None =>
      let p := rawApplication.Path
                 (rawApplication.Source (rawApplication.Spec raw)) in
      if decide (p = "") then "." else p
  end.

(** A variable whose name starts with [prefix]: the name is the prefix
    followed by some rest, possibly empty. *)
Definition namedWithPrefix (prefix : string) (envVar : EnvVar) : Prop :=
  ∃ rest, EnvVar.Name envVar = prefix +:+ rest.

(** The candidate a label gives for [instance] or [env]: the value of
    the label when the document has labels and that label among them, the
    empty string otherwise. *)
Definition labelCandidate (raw : rawApplication) (k : string) : string :=
  default "" (rawApplication.Labels (rawApplication.Metadata raw) ≫= (.!! k)).

(** What follows the first [=] of a string; nothing when it has none. *)
Fixpoint afterFirstEq (s : string) : string :=
  match s with
  | EmptyString => EmptyString
  | String c s' => if Ascii.eqb c "=" then s' else afterFirstEq s'
  end.

(** The candidate the plugin environment gives: what follows the first
    [=] in the value of the last variable named [name], the empty string
    when no variable has that name. *)
Definition pluginCandidate (name : string) (env : list EnvVar) : string :=
  from_option (λ envVar, afterFirstEq (EnvVar.Value envVar)) ""
    (last (filter (λ envVar, EnvVar.Name envVar = name) env)).

(** A text names a value when the value occurs in it. *)
Definition mentions (text value : string) : Prop :=
  ∃ before after, text = before +:+ value +:+ after.

(** A document of the Application resource type, by its declared API
    version and kind. *)
Definition isApplicationDocument (raw : rawApplication) : Prop :=
  rawApplication.ApiVersion raw = "argoproj.io/v1alpha1"
  ∧ rawApplication.Kind raw = "Application".

#[global] Instance isApplicationDocument_dec raw :
  Decision (isApplicationDocument raw).
Proof. unfold isApplicationDocument. apply _. Defined.

End Spec.

(** ** Concrete documents: the cases of parser_test.go and a few more *)

Module Cases.
Import Argo.

Definition mkRaw (name : string) (labels annotations : option (gmap string string))
    (repoURL targetRevision path : string) (env : option (list EnvVar))
  : rawApplication :=
  {| rawApplication.ApiVersion := "argoproj.io/v1alpha1";
     rawApplication.Kind := "Application";
     rawApplication.Metadata :=
       {| rawApplication.Name := name;
          rawApplication.Labels := labels;
          rawApplication.Annotations := annotations |};
     rawApplication.Spec :=
       {| rawApplication.Source :=
            {| rawApplication.RepoURL := repoURL;
               rawApplication.TargetRevision := targetRevision;
               rawApplication.Path := path;
               rawApplication.Plugin :=
                 (λ e, {| rawApplication.Env := e |}) <$> env |} |} |}.

Definition envVar (name value : string) : EnvVar :=
  {| EnvVar.Name := name; EnvVar.Value := value |}.

Definition defaultAnnotations : option (gmap string string) :=
  Some {[ "rawRepository" := "https://default.repo" ]}.

(** [baseRawApp()] of [TestNewApplicationFromRaw]. *)
Definition baseRawApp : rawApplication :=
  mkRaw "test-app" None defaultAnnotations "" "main" "" None.

(** "extracts setters correctly" *)
Definition settersRaw : rawApplication :=
  mkRaw "test-app" None defaultAnnotations "" "main" ""
    (Some [envVar "WERF_SET_IMAGE_TAG" "global.image.tag=v1.2.3";
           envVar "WERF_SET_REPLICA_COUNT" "frontend.replicaCount=3";
           envVar "WERF_SET_INVALID" "no-equals-sign"]).

(** The [Setters] that test expects. *)
Definition settersExpected : gmap string string :=
  {[ "global.image.tag" := "v1.2.3"; "frontend.replicaCount" := "3" ]}.

(** "instance and env from plugin.env only" *)
Definition pluginOnlyRaw : rawApplication :=
  mkRaw "test-app" None defaultAnnotations "" "main" ""
    (Some [envVar "WERF_SET_INSTANCE" "global.instance=from-plugin";
           envVar "WERF_SET_ENV" "global.env=dev-plugin"]).

(** "extracts and sorts values files correctly" *)
Definition valuesRaw : rawApplication :=
  mkRaw "test-app" None defaultAnnotations "" "main" ""
    (Some [envVar "WERF_VALUES_2" "values/prod.yaml";
           envVar "WERF_VALUES_0" "values/common.yaml";
           envVar "SOME_OTHER_VAR" "ignore-me";
           envVar "WERF_VALUES_1" "values/overlay.yaml";
           envVar "WERF_VALUES_INVALID" "ignore-me-too"]).

(** "conflict when both instance sources differ" *)
Definition conflictRaw : rawApplication :=
  mkRaw "test-app" (Some {[ "instance" := "from-label" ]}) defaultAnnotations
    "" "main" ""
    (Some [envVar "WERF_SET_INSTANCE" "global.instance=from-plugin"]).

(** A document without a name. *)
Definition namelessRaw : rawApplication :=
  mkRaw "" None defaultAnnotations "" "main" "" None.

(** A values file with a negative index. *)
Definition negativeIndexRaw : rawApplication :=
  mkRaw "test-app" None defaultAnnotations "" "main" ""
    (Some [envVar "WERF_VALUES_0" "values/common.yaml";
           envVar "WERF_VALUES_-1" "values/first.yaml"]).

(** Two values files with the same index, written [1] and [01]. *)
Definition tiedIndexRaw : rawApplication :=
  mkRaw "test-app" None defaultAnnotations "" "main" ""
    (Some [envVar "WERF_VALUES_1" "values/a.yaml";
           envVar "WERF_VALUES_01" "values/b.yaml"]).

(** A document without a target revision. *)
Definition noRevisionRaw : rawApplication :=
  mkRaw "svc" None
    (Some {[ "rawRepository" := "https://git.example.com/org/repo" ]})
    "" "" "" None.

(** Two descriptors of the same repository and revision, one by its
    https address and one by its ssh address. *)
Definition descriptor (name repoURL : string) : Application :=
  {| Application.Name := name;
     Application.Instance := "";
     Application.Env := "";
     Application.RepoURL := repoURL;
     Application.Path := ".";
     Application.TargetRevision := "main";
     Application.PluginEnv := [];
     Application.ValuesFiles := [];
     Application.Setters := None |}.

Definition appOne : Application :=
  descriptor "one" "https://git.example.com/org/repo".
Definition appTwo : Application :=
  descriptor "two" "git@git.example.com:org/repo".

Definition okAnswer : App.answer := Ok "".

(** Both goroutines look the key up before either one stores its clone. *)
Definition racingSchedule : list App.choice :=
  [App.Start; App.Start;
   App.Step 0 okAnswer; App.Step 1 okAnswer;
   App.Step 0 okAnswer; App.Step 1 okAnswer;
   App.Step 0 okAnswer; App.Step 1 okAnswer;
   App.Step 0 okAnswer; App.Step 1 okAnswer;
   App.Step 0 okAnswer; App.Step 1 okAnswer;
   App.Step 0 (Ok "kind: A"); App.Step 1 (Ok "kind: B");
   App.Step 0 okAnswer; App.Step 1 okAnswer;
   App.Step 0 okAnswer; App.Step 1 okAnswer].

(** The first goroutine returns before the second one starts. *)
Definition sequentialSchedule : list App.choice :=
  [App.Start;
   App.Step 0 okAnswer; App.Step 0 okAnswer; App.Step 0 okAnswer;
   App.Step 0 okAnswer; App.Step 0 okAnswer; App.Step 0 (Ok "kind: A");
   App.Step 0 okAnswer; App.Step 0 okAnswer;
   App.Start;
   App.Step 1 okAnswer; App.Step 1 okAnswer; App.Step 1 (Ok "kind: B");
   App.Step 1 okAnswer; App.Step 1 okAnswer].

(** One goroutine, run up to its clone call. *)
Definition firstCloneSchedule : list App.choice :=
  [App.Start; App.Step 0 okAnswer; App.Step 0 okAnswer; App.Step 0 okAnswer;
   App.Step 0 okAnswer].

End Cases.

(** ** [processApplication] from call to return, and [Run] one goroutine at
       a time *)

Module Workers.
Import Argo App.

(** The goroutines that returned an error. *)
Definition isFailed (w : worker) : bool :=
  match w with Failed _ => true | _ => false end.

(** The application a goroutine that has not returned is working on. *)
Definition appOf (w : worker) : option Application :=
  match w with
  | Queued app | Lookup app _ | Reserve app _ | Cloning app _ _
  | Caching app _ _ | Rendering app _ | MakingDir app _ | Writing app _ =>
      Some app
  | Done | Failed _ => None
  end.

(** The call a goroutine makes at its next step, if that step makes one. *)
Definition callOf (w : worker) (st : appState) : option call :=
  match w with
  | Cloning app sshURL repoPath =>
      Some (GitClone sshURL (Application.TargetRevision app) repoPath
              (Git.cloneOptions sshURL (Application.TargetRevision app)))
  | Rendering app repoPath => Some (HelmTemplate (appOpts app repoPath))
  | MakingDir app _ => Some (MkdirAll (finalOutputDir st app))
  | Writing app renderedApp => Some (WriteFile (outputFile st app) renderedApp)
  | _ => None
  end.

(** The outside world: what each call is answered. *)
Definition world : Type := call → answer.

(** The next step of a goroutine, the call it makes answered by the
    world. *)
Definition stepIn `{UrlParse} (env : world) (w : worker) (st : appState)
  : worker * appState * list call :=
  processStep w
    (match callOf w st with Some c => env c | None => Ok "" end) st.

(** Steps of one goroutine with nothing in between, until it returns or
    [fuel] runs out. *)
Fixpoint runWorker `{UrlParse} (env : world) (fuel : nat) (w : worker)
    (st : appState) : worker * appState * list call :=
  match fuel with
  | O => (w, st, [])
  | S fuel' =>
      if finished w then (w, st, [])
      else
        let '(w', st', cs) := stepIn env w st in
        let '(w'', st'', cs') := runWorker env fuel' w' st' in
        (w'', st'', (cs ++ cs')%list)
  end.

(** [processApplication(app, state)] run without interruption: the eight
    places from [Queued] to [Writing] are left one after the other. *)
Definition processApplication `{UrlParse} (env : world) (app : Application)
    (st : appState) : worker * appState * list call :=
  runWorker env 8 (Queued app) st.

(** The applications processed one after the other, each goroutine
    returning before the next one starts: the shared state, the calls made
    and the errors sent to [errChan]. *)
Fixpoint processEach `{UrlParse} (env : world) (applications : list Application)
    (st : appState) : appState * list call * list error :=
  match applications with
  | [] => (st, [], [])
  | app :: applications' =>
      let '(w, st', cs) := processApplication env app st in
      let '(st'', cs', errs) := processEach env applications' st' in
      (st'', (cs ++ cs')%list,
       match w with Failed err => err :: errs | _ => errs end)
  end.

(** The world in which every clone succeeds. *)
Definition clonesSucceed (env : world) : Prop :=
  ∀ repoURL revision targetPath opts,
    is_Ok (env (GitClone repoURL revision targetPath opts)).

End Workers.

(** ** More concrete inputs *)

Module MoreCases.
Import Argo App Workers.

(** A document that is not an Application. *)
Definition configMapRaw : rawApplication :=
  {| rawApplication.ApiVersion := "v1";
     rawApplication.Kind := "ConfigMap";
     rawApplication.Metadata :=
       {| rawApplication.Name := "my-config";
          rawApplication.Labels := None;
          rawApplication.Annotations := None |};
     rawApplication.Spec :=
       {| rawApplication.Source :=
            {| rawApplication.RepoURL := "";
               rawApplication.TargetRevision := "";
               rawApplication.Path := "";
               rawApplication.Plugin := None |} |} |}.

(** The values files of [Cases.valuesRaw] given in another order. *)
Definition valuesReorderedRaw : rawApplication :=
  Cases.mkRaw "test-app" None Cases.defaultAnnotations "" "main" ""
    (Some [Cases.envVar "WERF_VALUES_0" "values/common.yaml";
           Cases.envVar "WERF_VALUES_2" "values/prod.yaml";
           Cases.envVar "SOME_OTHER_VAR" "ignore-me";
           Cases.envVar "WERF_VALUES_1" "values/overlay.yaml";
           Cases.envVar "WERF_VALUES_INVALID" "ignore-me-too"]).

(** What [newApplicationFromRaw] makes of [Cases.valuesRaw] and of
    [valuesReorderedRaw]. *)
Definition valuesApp : Application :=
  {| Application.Name := "test-app";
     Application.Instance := "";
     Application.Env := "";
     Application.RepoURL := "https://default.repo";
     Application.Path := ".";
     Application.TargetRevision := "main";
     Application.PluginEnv := [Cases.envVar "SOME_OTHER_VAR" "ignore-me"];
     Application.ValuesFiles :=
       ["values/common.yaml"; "values/overlay.yaml"; "values/prod.yaml"];
     Application.Setters := None |}.

(** A world in which every call succeeds, and one in which every call
    fails. *)
Definition allSucceed : world := λ _, Ok "".
Definition allFail : world := λ _, Err "failed".

(** The shared state [Run] starts from. *)
Definition freshState : appState :=
  state (runInit "/tmp/argo-charts-1" "rendered" []).


(** One goroutine whose clone fails. *)
Definition failedCloneSchedule : list choice :=
  [Start; Step 0 Cases.okAnswer; Step 0 Cases.okAnswer;
   Step 0 Cases.okAnswer; Step 0 (Err "no such branch")].

(** A document whose [instance] label is there with an empty value,
    beside a plugin variable that sets the instance. *)
Definition emptyLabelRaw : rawApplication :=
  Cases.mkRaw "test-app" (Some {[ "instance" := "" ]}) Cases.defaultAnnotations
    "" "main" ""
    (Some [Cases.envVar "WERF_SET_INSTANCE" "global.instance=from-plugin"]).

(** A stream of two Applications with a ConfigMap between them. *)
Definition mixedDocuments : list rawApplication :=
  [Cases.baseRawApp; configMapRaw; Cases.noRevisionRaw].

(** A stream in which every document decodes and the second Application
    does not resolve. *)
Definition unresolvedDocuments : list rawApplication :=
  [Cases.baseRawApp; Cases.conflictRaw].

End MoreCases.

(** ** Plain repository addresses *)

Module Addresses.

(** The bytes of an ordinary host name: letters, digits, [-] and [.]. *)
Definition hostByte (c : ascii) : bool :=
  Url.isLetter c || Url.isDigit c || Strings.ContainsByte "-." c.

(** The bytes of an ordinary repository path: letters, digits and
    [-._~/]. *)
Definition pathByte (c : ascii) : bool :=
  Url.isLetter c || Url.isDigit c || Strings.ContainsByte "-._~/" c.

Definition plainHost (host : string) : bool :=
  forallb hostByte (list_ascii_of_string host).

Definition plainPath (path : string) : bool :=
  forallb pathByte (list_ascii_of_string path).

End Addresses.

(** * Properties *)

Import Sort Argo App.

(** ** Insertion sort keeps the promise of [sort.Slice] *)

Lemma insertBack_perm {A} (less : A → A → bool) v rprefix :
  insertBack less v rprefix ≡ₚ v :: rprefix.
Proof.
  induction rprefix as [|u rp IH]; simpl; [done|].
  destruct (less v u); [|done].
  rewrite IH. apply Permutation_swap.
Qed.

Lemma insertionSort_perm {A} (less : A → A → bool) x :
  insertionSort less x ≡ₚ x.
Proof.
  unfold insertionSort. rewrite <- Permutation_rev.
  assert (G : ∀ acc, fold_left (λ rp v, insertBack less v rp) x acc ≡ₚ x ++ acc).
  { induction x as [|v x IH]; intros acc; simpl; [done|].
    rewrite IH, insertBack_perm. by rewrite Permutation_middle. }
  rewrite G. by rewrite app_nil_r.
Qed.

Lemma insertBack_sorted {A} (key : A → Z) v rprefix :
  StronglySorted (λ a b, key b ≤ key a) rprefix →
  StronglySorted (λ a b, key b ≤ key a)
    (insertBack (λ a b, bool_decide (key a < key b)) v rprefix).
Proof.
  induction 1 as [|u rp Hs IH Hu]; simpl.
  - repeat constructor.
  - case_bool_decide as Hlt.
    + constructor; [done|].
      rewrite insertBack_perm. constructor; [lia|done].
    + constructor; [by constructor|].
      constructor; [lia|].
      eapply Forall_impl; [exact Hu|]. simpl. intros; lia.
Qed.

Lemma StronglySorted_rev_flip {A} (R : A → A → Prop) l :
  StronglySorted (λ a b, R b a) l → StronglySorted R (rev l).
Proof.
  induction 1 as [|u l Hs IH Hu]; simpl; [constructor|].
  apply StronglySorted_app_2; [|done|repeat constructor].
  intros a b Ha Hb. apply list_elem_of_In, in_rev, list_elem_of_In in Ha.
  apply list_elem_of_singleton in Hb as ->.
  rewrite Forall_forall in Hu. by apply Hu.
Qed.

Lemma insertionSort_sorted {A} (key : A → Z) x :
  StronglySorted (λ a b, key a ≤ key b)
    (insertionSort (λ a b, bool_decide (key a < key b)) x).
Proof.
  unfold insertionSort. apply StronglySorted_rev_flip.
  assert (G : ∀ acc, StronglySorted (λ a b, key b ≤ key a) acc →
     StronglySorted (λ a b, key b ≤ key a)
       (fold_left (λ rp v, insertBack (λ a b, bool_decide (key a < key b)) v rp) x acc)).
  { induction x as [|v x IH]; intros acc Hacc; simpl; [done|].
    apply IH. by apply insertBack_sorted. }
  apply G. constructor.
Qed.

Lemma insertionSlice_spec : SliceSortSpec insertionSlice.
Proof.
  split.
  - intros. apply insertionSort_perm.
  - intros. apply insertionSort_sorted.
Qed.

Lemma reversingSlice_spec : SliceSortSpec reversingSlice.
Proof.
  split.
  - intros. unfold Slice, reversingSlice.
    rewrite insertionSort_perm. symmetry. apply Permutation_rev.
  - intros. apply insertionSort_sorted.
Qed.

(** ** The resolver *)

(** *** The loop over the plugin environment *)

Lemma envLoopBody_remaining st envVar :
  remainingPluginEnv (envLoopBody st envVar) =
  (remainingPluginEnv st
   ++ (if Spec.hasValuesPrefix envVar then [] else [envVar]))%list.
Proof.
  unfold envLoopBody, Spec.hasValuesPrefix.
  destruct envVar as [name value]; simpl.
  case_bool_decide as H1; [by subst|].
  case_bool_decide as H2; [by subst|].
  destruct (Strings.HasPrefix name "WERF_VALUES_"); [|done].
  destruct (Strconv.Atoi _); simpl; by rewrite ?app_nil_r.
Qed.

Lemma envLoopBody_indexed st envVar :
  indexedValues (envLoopBody st envVar) =
  (indexedValues st ++ option_list (Spec.indexedValueOf envVar))%list.
Proof.
  unfold envLoopBody, Spec.indexedValueOf, Spec.hasValuesPrefix.
  destruct envVar as [name value]; simpl.
  case_bool_decide as H1; [subst; simpl; by rewrite app_nil_r|].
  case_bool_decide as H2; [subst; simpl; by rewrite app_nil_r|].
  destruct (Strings.HasPrefix name "WERF_VALUES_"); simpl;
    [|by rewrite app_nil_r].
  destruct (Strconv.Atoi _); simpl; by rewrite ?app_nil_r.
Qed.

Lemma envLoop_remaining env st :
  remainingPluginEnv (fold_left envLoopBody env st) =
  (remainingPluginEnv st
   ++ filter (λ envVar, Spec.hasValuesPrefix envVar = false) env)%list.
Proof.
  revert st. induction env as [|e env IH]; intros st; simpl.
  - by rewrite app_nil_r.
  - rewrite IH, envLoopBody_remaining, <- app_assoc. f_equal.
    rewrite filter_cons. case_decide as Hp.
    + by rewrite Hp.
    + by destruct (Spec.hasValuesPrefix e).
Qed.

Lemma envLoop_indexed env st :
  indexedValues (fold_left envLoopBody env st) =
  (indexedValues st ++ omap Spec.indexedValueOf env)%list.
Proof.
  revert st. induction env as [|e env IH]; intros st; simpl.
  - by rewrite app_nil_r.
  - rewrite IH, envLoopBody_indexed, <- app_assoc. f_equal.
    by destruct (Spec.indexedValueOf e).
Qed.

Lemma envLoopRun_remaining raw :
  remainingPluginEnv (envLoopRun raw) =
  filter (λ envVar, Spec.hasValuesPrefix envVar = false) (Spec.pluginEnvOf raw).
Proof.
  unfold envLoopRun, Spec.pluginEnvOf.
  destruct (rawApplication.Plugin _); [|done]. by rewrite envLoop_remaining.
Qed.

Lemma envLoopRun_indexed raw :
  indexedValues (envLoopRun raw) =
  omap Spec.indexedValueOf (Spec.pluginEnvOf raw).
Proof.
  unfold envLoopRun, Spec.pluginEnvOf.
  destruct (rawApplication.Plugin _); [|done]. by rewrite envLoop_indexed.
Qed.

Lemma last_cons_default {A} (l : list A) (a d : A) :
  List.last (a :: l) d = List.last l a.
Proof.
  revert a d. induction l as [|b l IH]; intros a d; [done|].
  change (List.last (a :: b :: l) d) with (List.last (b :: l) d).
  rewrite IH. symmetry. apply IH.
Qed.

(** The candidate extracted for [instance] comes from the last
    [WERF_SET_INSTANCE] variable. *)
Lemma envLoop_instance env st :
  instanceFromPlugin (fold_left envLoopBody env st) =
  match filter (λ envVar, EnvVar.Name envVar = "WERF_SET_INSTANCE") env with
  | [] => instanceFromPlugin st
  | e :: es => extractValueFromWerfSet (EnvVar.Value (List.last es e))
  end.
Proof.
  revert st. induction env as [|e env IH]; intros st; simpl; [done|].
  rewrite IH, filter_cons. unfold envLoopBody.
  destruct (decide (EnvVar.Name e = "WERF_SET_INSTANCE")) as [Hn|Hn].
  - rewrite bool_decide_true by done. simpl.
    destruct (filter _ env) as [|e' es]; [done|]. by rewrite last_cons_default.
  - rewrite bool_decide_false by done.
    destruct (filter _ env) as [|e' es]; [|done].
    case_bool_decide; [done|].
    destruct (Strings.HasPrefix _ _); [|done].
    by destruct (Strconv.Atoi _).
Qed.

Lemma envLoop_env env st :
  envFromPlugin (fold_left envLoopBody env st) =
  match filter (λ envVar, EnvVar.Name envVar = "WERF_SET_ENV") env with
  | [] => envFromPlugin st
  | e :: es => extractValueFromWerfSet (EnvVar.Value (List.last es e))
  end.
Proof.
  revert st. induction env as [|e env IH]; intros st; simpl; [done|].
  rewrite IH, filter_cons. unfold envLoopBody.
  destruct (decide (EnvVar.Name e = "WERF_SET_ENV")) as [Hn|Hn].
  - rewrite bool_decide_false by (rewrite Hn; done).
    rewrite bool_decide_true by done. simpl.
    destruct (filter _ env) as [|e' es]; [done|]. by rewrite last_cons_default.
  - destruct (filter _ env) as [|e' es]; [|done].
    case_bool_decide; [done|].
    rewrite bool_decide_false by done.
    destruct (Strings.HasPrefix _ _); [|done].
    by destruct (Strconv.Atoi _).
Qed.

Lemma envLoopRun_instance raw :
  instanceFromPlugin (envLoopRun raw) =
  Spec.lastExtracted "WERF_SET_INSTANCE" (Spec.pluginEnvOf raw).
Proof.
  unfold envLoopRun, Spec.pluginEnvOf, Spec.lastExtracted.
  destruct (rawApplication.Plugin _); [|done]. by rewrite envLoop_instance.
Qed.

Lemma envLoopRun_env raw :
  envFromPlugin (envLoopRun raw) =
  Spec.lastExtracted "WERF_SET_ENV" (Spec.pluginEnvOf raw).
Proof.
  unfold envLoopRun, Spec.pluginEnvOf, Spec.lastExtracted.
  destruct (rawApplication.Plugin _); [|done]. by rewrite envLoop_env.
Qed.

Lemma conflict_test label plugin :
  bool_decide (label ≠ "") && bool_decide (plugin ≠ "")
  && bool_decide (label ≠ plugin) = bool_decide (Spec.conflict label plugin).
Proof.
  unfold Spec.conflict, Spec.present.
  rewrite <- !bool_decide_and. apply bool_decide_ext. tauto.
Qed.

Lemma resolved_test label plugin :
  (if bool_decide (label ≠ "") then label else plugin) =
  Spec.resolved label plugin.
Proof.
  unfold Spec.resolved. case_bool_decide; case_decide; done.
Qed.

Lemma mapIndex_annotation raw k :
  mapIndex (rawApplication.Annotations (rawApplication.Metadata raw)) k =
  match Spec.annotationOf raw k with
  | Some val => (val, true)
  | None => ("", false)
  end.
Proof.
  unfold mapIndex, Spec.annotationOf.
  by destruct (rawApplication.Annotations _).
Qed.

(** [newApplicationFromRaw] as three checks in a row and the descriptor
    built when all pass. *)
Lemma newApplicationFromRaw_eq `{SliceSort} raw :
  newApplicationFromRaw raw =
  let il := labelOf raw "instance" in
  let ip := instanceFromPlugin (envLoopRun raw) in
  let el := labelOf raw "env" in
  let ep := envFromPlugin (envLoopRun raw) in
  if decide (Spec.conflict il ip) then Err (ConflictInstance il ip)
  else if decide (Spec.conflict el ep) then Err (ConflictEnv el ep)
  else if decide (Spec.repoOf raw = "") then Err RepoEmpty
  else
    Ok {| Application.Name := rawApplication.Name (rawApplication.Metadata raw);
          Application.Instance := Spec.resolved il ip;
          Application.Env := Spec.resolved el ep;
          Application.RepoURL := Spec.repoOf raw;
          Application.Path := Spec.pathOf raw;
          Application.TargetRevision :=
            rawApplication.TargetRevision
              (rawApplication.Source (rawApplication.Spec raw));
          Application.PluginEnv := remainingPluginEnv (envLoopRun raw);
          Application.ValuesFiles :=
            path <$> Slice (λ i j, bool_decide (index i < index j))
                       (indexedValues (envLoopRun raw));
          Application.Setters := None |}.
Proof.
  unfold newApplicationFromRaw. cbv zeta.
  rewrite !conflict_test, !resolved_test, !mapIndex_annotation.
  destruct (decide (Spec.conflict (labelOf raw "instance") _)) as [?|?];
    [by rewrite bool_decide_true|rewrite bool_decide_false by done].
  destruct (decide (Spec.conflict (labelOf raw "env") _)) as [?|?];
    [by rewrite bool_decide_true|rewrite bool_decide_false by done].
  unfold Spec.repoOf, Spec.pathOf.
  destruct (Spec.annotationOf raw "rawRepository") as [r|]; simpl;
    [destruct (decide (r = "")) as [->|Hr]; simpl;
       [|rewrite (bool_decide_false (r = "")) by done; simpl]|];
    try (case_bool_decide; case_decide; try done);
    destruct (Spec.annotationOf raw "rawPath") as [p|]; simpl; try done;
    by repeat case_bool_decide; repeat case_decide.
Qed.

(** Every successful resolution, read off the closed form. *)
Lemma newApplicationFromRaw_Ok `{SliceSort} raw app :
  newApplicationFromRaw raw = Ok app →
  ¬ Spec.conflict (labelOf raw "instance") (instanceFromPlugin (envLoopRun raw))
  ∧ ¬ Spec.conflict (labelOf raw "env") (envFromPlugin (envLoopRun raw))
  ∧ Spec.repoOf raw ≠ ""
  ∧ app =
    {| Application.Name := rawApplication.Name (rawApplication.Metadata raw);
       Application.Instance :=
         Spec.resolved (labelOf raw "instance")
           (instanceFromPlugin (envLoopRun raw));
       Application.Env :=
         Spec.resolved (labelOf raw "env") (envFromPlugin (envLoopRun raw));
       Application.RepoURL := Spec.repoOf raw;
       Application.Path := Spec.pathOf raw;
       Application.TargetRevision :=
         rawApplication.TargetRevision
           (rawApplication.Source (rawApplication.Spec raw));
       Application.PluginEnv := remainingPluginEnv (envLoopRun raw);
       Application.ValuesFiles :=
         path <$> Slice (λ i j, bool_decide (index i < index j))
                    (indexedValues (envLoopRun raw));
       Application.Setters := None |}.
Proof.
  rewrite newApplicationFromRaw_eq. cbv zeta.
  repeat case_decide; intros [= <-]; done.
Qed.

(** [newApplicationFromRaw] never assigns [Setters]. *)
Lemma newApplicationFromRaw_Setters `{SliceSort} raw app :
  newApplicationFromRaw raw = Ok app → Application.Setters app = None.
Proof. intros (_ & _ & _ & ->)%newApplicationFromRaw_Ok. done. Qed.

(** What the code keeps in [PluginEnv]: every variable whose name does not
    start with [WERF_VALUES_], the instance and env variables included. *)
Lemma newApplicationFromRaw_PluginEnv `{SliceSort} raw app :
  newApplicationFromRaw raw = Ok app →
  Application.PluginEnv app =
  filter (λ envVar, Spec.hasValuesPrefix envVar = false) (Spec.pluginEnvOf raw).
Proof.
  intros (_ & _ & _ & ->)%newApplicationFromRaw_Ok. simpl.
  apply envLoopRun_remaining.
Qed.

(** C1. At the input of the test "extracts setters correctly" the resolver
    returns no setters map at all: [Setters] is [nil], the three
    [WERF_SET_] variables are left in [PluginEnv] as they came, and the
    override values the child render starts from are empty, not the two
    setters the test expects. *)
Theorem setters_test_not_extracted :
  ∃ app,
    newApplicationFromRaw Cases.settersRaw = Ok app
    ∧ Application.Setters app = None
    ∧ Application.PluginEnv app =
      [Cases.envVar "WERF_SET_IMAGE_TAG" "global.image.tag=v1.2.3";
       Cases.envVar "WERF_SET_REPLICA_COUNT" "frontend.replicaCount=3";
       Cases.envVar "WERF_SET_INVALID" "no-equals-sign"]
    ∧ App.werfSetValues app = ∅
    ∧ App.werfSetValues app ≠ Cases.settersExpected.
Proof.
  eexists. split; [vm_compute; reflexivity|].
  repeat split; try reflexivity.
  intros Heq. apply (f_equal (λ m, m !! "global.image.tag")) in Heq.
  vm_compute in Heq. discriminate.
Qed.

(** C2, the claim as stated fails: at the input of the test "instance and
    env from plugin.env only" the [WERF_SET_INSTANCE] and [WERF_SET_ENV]
    variables, although read for [Instance] and [Env], are both in
    [PluginEnv]. *)
Lemma pluginEnv_test_keeps_instance_env :
  ∃ app,
    newApplicationFromRaw Cases.pluginOnlyRaw = Ok app
    ∧ Application.Instance app = "from-plugin"
    ∧ Application.Env app = "dev-plugin"
    ∧ Application.PluginEnv app =
      [Cases.envVar "WERF_SET_INSTANCE" "global.instance=from-plugin";
       Cases.envVar "WERF_SET_ENV" "global.env=dev-plugin"].
Proof. eexists. split; [vm_compute; reflexivity|]. by repeat split. Qed.

(** *** Names that start with a prefix *)

Lemma HasPrefix_namedWithPrefix (prefix : string) (envVar : EnvVar) :
  Strings.HasPrefix (EnvVar.Name envVar) prefix = true
  ↔ Spec.namedWithPrefix prefix envVar.
Proof.
  unfold Spec.namedWithPrefix. generalize (EnvVar.Name envVar) as s.
  induction prefix as [|c prefix IH]; intros s.
  - split; [intros _; by exists s|by destruct s].
  - destruct s as [|d s]; cbn [Strings.HasPrefix].
    + split; [done|]. intros [rest Hr].
      change (String c prefix +:+ rest) with (String c (prefix +:+ rest)) in Hr.
      discriminate.
    + destruct (Ascii.eqb_spec c d) as [->|Hcd].
      * rewrite IH. split; intros [rest Hr]; exists rest.
        -- change (String d prefix +:+ rest)
             with (String d (prefix +:+ rest)). by rewrite Hr.
        -- change (String d prefix +:+ rest)
             with (String d (prefix +:+ rest)) in Hr. by injection Hr.
      * split; [done|]. intros [rest Hr].
        change (String c prefix +:+ rest)
          with (String c (prefix +:+ rest)) in Hr.
        injection Hr as Hd _. by destruct Hcd.
Qed.

#[global] Instance namedWithPrefix_dec prefix envVar :
  Decision (Spec.namedWithPrefix prefix envVar).
Proof.
  refine (cast_if
            (decide (Strings.HasPrefix (EnvVar.Name envVar) prefix = true)));
    by rewrite <- HasPrefix_namedWithPrefix.
Defined.

Lemma filter_namedWithPrefix (prefix : string) (env : list EnvVar) :
  filter (λ envVar,
            Strings.HasPrefix (EnvVar.Name envVar) prefix = false) env
  = filter (λ envVar, ¬ Spec.namedWithPrefix prefix envVar) env.
Proof.
  induction env as [|e env IH]; [done|].
  rewrite !filter_cons, IH.
  pose proof (HasPrefix_namedWithPrefix prefix e) as Hp.
  destruct (decide (Strings.HasPrefix (EnvVar.Name e) prefix = false))
    as [Hk|Hk];
    destruct (decide (¬ Spec.namedWithPrefix prefix e)) as [Hd|Hd];
    try done; exfalso.
  - apply Hd. intros Hn. apply Hp in Hn. congruence.
  - apply Hk. destruct (Strings.HasPrefix _ _); [|done].
    exfalso. by apply Hd, Hp.
Qed.

(** C2, amended. On success [PluginEnv] holds exactly the plugin
    environment variables whose name does not start with [WERF_VALUES_], in
    their original order and with name and value unchanged; the
    [WERF_SET_INSTANCE] and [WERF_SET_ENV] variables, although read for
    [Instance] and [Env], are among them, and a [WERF_VALUES_] variable is
    left out whether its index parses or not. *)
Theorem pluginEnv_keeps_all_but_values_files `{SliceSort}
    (raw : rawApplication) (app : Application) :
  newApplicationFromRaw raw = Ok app →
  Application.PluginEnv app =
    filter (λ envVar, ¬ Spec.namedWithPrefix "WERF_VALUES_" envVar)
      (Spec.pluginEnvOf raw)
  ∧ Application.PluginEnv app `sublist_of` Spec.pluginEnvOf raw
  ∧ (∀ envVar,
       envVar ∈ Spec.pluginEnvOf raw →
       EnvVar.Name envVar = "WERF_SET_INSTANCE"
       ∨ EnvVar.Name envVar = "WERF_SET_ENV" →
       envVar ∈ Application.PluginEnv app)
  ∧ (∀ name value,
       {| EnvVar.Name := "WERF_VALUES_" +:+ name; EnvVar.Value := value |}
       ∉ Application.PluginEnv app).
Proof.
  intros Hr. apply newApplicationFromRaw_PluginEnv in Hr.
  unfold Spec.hasValuesPrefix in Hr.
  rewrite filter_namedWithPrefix in Hr. rewrite Hr.
  split; [done|]. split; [apply sublist_filter|]. split.
  - intros envVar Hin Hname. apply list_elem_of_filter. split; [|done].
    intros [rest Hrest]. rewrite Hrest in Hname.
    destruct Hname as [Hname|Hname];
      apply (f_equal (λ s, String.get 5 s)) in Hname;
      vm_compute in Hname; discriminate.
  - intros name value Hin. apply list_elem_of_filter in Hin as [Hn _].
    apply Hn. by exists name.
Qed.

(** C2, amended, at the input of the test "instance and env from
    plugin.env only". *)
Lemma pluginEnv_keeps_all_but_values_files_witness :
  let kept :=
    [Cases.envVar "WERF_SET_INSTANCE" "global.instance=from-plugin";
     Cases.envVar "WERF_SET_ENV" "global.env=dev-plugin"] in
  kept =
    filter (λ envVar, ¬ Spec.namedWithPrefix "WERF_VALUES_" envVar)
      (Spec.pluginEnvOf Cases.pluginOnlyRaw)
  ∧ kept `sublist_of` Spec.pluginEnvOf Cases.pluginOnlyRaw
  ∧ (∀ envVar,
       envVar ∈ Spec.pluginEnvOf Cases.pluginOnlyRaw →
       EnvVar.Name envVar = "WERF_SET_INSTANCE"
       ∨ EnvVar.Name envVar = "WERF_SET_ENV" →
       envVar ∈ kept)
  ∧ (∀ name value,
       {| EnvVar.Name := "WERF_VALUES_" +:+ name; EnvVar.Value := value |}
       ∉ kept).
Proof.
  apply (pluginEnv_keeps_all_but_values_files Cases.pluginOnlyRaw
           {| Application.Name := "test-app";
              Application.Instance := "from-plugin";
              Application.Env := "dev-plugin";
              Application.RepoURL := "https://default.repo";
              Application.Path := ".";
              Application.TargetRevision := "main";
              Application.PluginEnv :=
                [Cases.envVar "WERF_SET_INSTANCE" "global.instance=from-plugin";
                 Cases.envVar "WERF_SET_ENV" "global.env=dev-plugin"];
              Application.ValuesFiles := [];
              Application.Setters := None |}).
  vm_compute. reflexivity.
Defined.

(** C3, the claim as stated fails: a document without a name resolves, to
    a descriptor whose name is empty. *)
Lemma nameless_document_resolves :
  ∃ app,
    newApplicationFromRaw Cases.namelessRaw = Ok app
    ∧ Application.Name app = "".
Proof. eexists. split; [vm_compute; reflexivity|]. done. Qed.

(** C3, amended. Whenever resolution succeeds the descriptor's repoURL is
    not empty, and resolution fails on every document for which it would be
    empty; the name is copied from the metadata as it is. *)
Theorem resolved_repoURL_nonempty `{SliceSort} (raw : rawApplication) :
  (∀ app, newApplicationFromRaw raw = Ok app →
     Application.RepoURL app ≠ ""
     ∧ Application.RepoURL app = Spec.repoOf raw
     ∧ Application.Name app = rawApplication.Name (rawApplication.Metadata raw))
  ∧ (Spec.repoOf raw = "" → is_Err (newApplicationFromRaw raw)).
Proof.
  split.
  - intros app (_ & _ & Hr & ->)%newApplicationFromRaw_Ok. done.
  - intros Hr. rewrite newApplicationFromRaw_eq. cbv zeta.
    repeat case_decide; done.
Qed.

(** *** The candidates, read off the document *)

Lemma labelOf_candidate raw k : labelOf raw k = Spec.labelCandidate raw k.
Proof.
  unfold labelOf, Spec.labelCandidate.
  destruct (rawApplication.Labels _) as [labels|]; simpl; [|done].
  by destruct (labels !! k).
Qed.

Lemma Cut_afterFirstEq s :
  match Strings.Cut s "=" with
  | (_, after, true) => after = Spec.afterFirstEq s
  | (_, _, false) => Spec.afterFirstEq s = ""
  end.
Proof.
  induction s as [|c s IH]; cbn [Strings.Cut Spec.afterFirstEq]; [done|].
  destruct (Ascii.eqb c "="); [done|].
  destruct (Strings.Cut s "=") as [[before after] found].
  by destruct found.
Qed.

Lemma extractValueFromWerfSet_afterFirstEq s :
  extractValueFromWerfSet s = Spec.afterFirstEq s.
Proof.
  unfold extractValueFromWerfSet, Strings.SplitN2.
  pose proof (Cut_afterFirstEq s) as Hc.
  destruct (Strings.Cut s "=") as [[before after] found].
  by destruct found.
Qed.

Lemma last_List_last {A} (l : list A) (a : A) :
  last (a :: l) = Some (List.last l a).
Proof.
  revert a. induction l as [|b l IH]; intros a; [done|].
  rewrite last_cons_cons, IH. by rewrite last_cons_default.
Qed.

Lemma lastExtracted_candidate name env :
  Spec.lastExtracted name env = Spec.pluginCandidate name env.
Proof.
  unfold Spec.lastExtracted, Spec.pluginCandidate.
  destruct (filter _ env) as [|e es]; [done|].
  rewrite last_List_last. simpl. apply extractValueFromWerfSet_afterFirstEq.
Qed.

Lemma string_append_assoc (s t u : string) :
  (s +:+ t) +:+ u = s +:+ t +:+ u.
Proof.
  induction s as [|x s IH]; [done|].
  change (String x (s +:+ t) +:+ u = String x (s +:+ t +:+ u)).
  change (String x ((s +:+ t) +:+ u) = String x (s +:+ t +:+ u)).
  by rewrite IH.
Qed.

Lemma mentions_conflict_text a l b p c :
  Spec.mentions (a +:+ l +:+ b +:+ p +:+ c) l
  ∧ Spec.mentions (a +:+ l +:+ b +:+ p +:+ c) p.
Proof.
  split.
  - by exists a, (b +:+ p +:+ c).
  - exists (a +:+ l +:+ b), c. by rewrite !string_append_assoc.
Qed.

(** C6, the claim as stated fails: the document has the label [instance],
    with an empty value, and the plugin variable gives [from-plugin]; both
    candidates are there and they differ, yet resolution does not fail: the
    empty label counts as absent and the plugin's value is taken. *)
Lemma empty_label_counts_as_absent :
  rawApplication.Labels (rawApplication.Metadata MoreCases.emptyLabelRaw)
    ≫= (.!! "instance") = Some ""
  ∧ Spec.pluginCandidate "WERF_SET_INSTANCE"
      (Spec.pluginEnvOf MoreCases.emptyLabelRaw) = "from-plugin"
  ∧ ∃ app,
      newApplicationFromRaw MoreCases.emptyLabelRaw = Ok app
      ∧ Application.Instance app = "from-plugin".
Proof.
  split; [vm_compute; reflexivity|]. split; [vm_compute; reflexivity|].
  eexists. split; [vm_compute; reflexivity|]. done.
Qed.

(** C6, amended. With the label's candidate the value of the label (empty
    when the label is missing) and the plugin's candidate what follows the
    first [=] in the value of the last [WERF_SET_INSTANCE] variable (empty
    when there is none), a candidate being present when it is not empty:
    resolution fails with the instance conflict error exactly when both
    candidates are present and unequal, and that error carries these two
    values and its text names both; the same holds for env with the [env]
    label and [WERF_SET_ENV], its check coming after the one of instance.
    On success the value is the common one when both are present, the
    present one when one is, and empty when none is. *)
Theorem instance_env_candidates_resolution `{SliceSort} (raw : rawApplication) :
  let il := Spec.labelCandidate raw "instance" in
  let ip := Spec.pluginCandidate "WERF_SET_INSTANCE" (Spec.pluginEnvOf raw) in
  let el := Spec.labelCandidate raw "env" in
  let ep := Spec.pluginCandidate "WERF_SET_ENV" (Spec.pluginEnvOf raw) in
  (Spec.conflict il ip
   ↔ newApplicationFromRaw raw = Err (ConflictInstance il ip))
  ∧ (∀ l p, newApplicationFromRaw raw = Err (ConflictInstance l p) →
       l = il ∧ p = ip)
  ∧ (¬ Spec.conflict il ip →
       (Spec.conflict el ep
        ↔ newApplicationFromRaw raw = Err (ConflictEnv el ep)))
  ∧ (∀ l p, newApplicationFromRaw raw = Err (ConflictEnv l p) →
       l = el ∧ p = ep ∧ ¬ Spec.conflict il ip)
  ∧ (∀ l p,
       Spec.mentions (Error (ConflictInstance l p)) l
       ∧ Spec.mentions (Error (ConflictInstance l p)) p
       ∧ Spec.mentions (Error (ConflictEnv l p)) l
       ∧ Spec.mentions (Error (ConflictEnv l p)) p)
  ∧ (∀ app, newApplicationFromRaw raw = Ok app →
       (Spec.present il → Spec.present ip →
          il = ip ∧ Application.Instance app = il)
       ∧ (Spec.present il → ¬ Spec.present ip → Application.Instance app = il)
       ∧ (¬ Spec.present il → Spec.present ip → Application.Instance app = ip)
       ∧ (¬ Spec.present il → ¬ Spec.present ip → Application.Instance app = "")
       ∧ (Spec.present el → Spec.present ep →
            el = ep ∧ Application.Env app = el)
       ∧ (Spec.present el → ¬ Spec.present ep → Application.Env app = el)
       ∧ (¬ Spec.present el → Spec.present ep → Application.Env app = ep)
       ∧ (¬ Spec.present el → ¬ Spec.present ep → Application.Env app = "")).
Proof.
  intros il ip el ep.
  assert (Hil : labelOf raw "instance" = il) by apply labelOf_candidate.
  assert (Hel : labelOf raw "env" = el) by apply labelOf_candidate.
  assert (Hip : instanceFromPlugin (envLoopRun raw) = ip).
  { rewrite envLoopRun_instance. apply lastExtracted_candidate. }
  assert (Hep : envFromPlugin (envLoopRun raw) = ep).
  { rewrite envLoopRun_env. apply lastExtracted_candidate. }
  pose proof (newApplicationFromRaw_eq raw) as Heq. cbv zeta in Heq.
  rewrite Hil, Hel, Hip, Hep in Heq.
  split; [|split; [|split; [|split; [|split]]]].
  - rewrite Heq. repeat case_decide; split; try done; try discriminate.
  - intros l p. rewrite Heq.
    repeat case_decide; try discriminate. by intros [= <- <-].
  - intros Hni. rewrite Heq.
    repeat case_decide; split; try done; try discriminate.
  - intros l p. rewrite Heq.
    repeat case_decide; try discriminate. by intros [= <- <-].
  - intros l p. unfold Error.
    destruct (mentions_conflict_text
                "conflicting values for 'instance': label is '" l
                "', plugin.env is '" p "'") as [? ?].
    destruct (mentions_conflict_text
                "conflicting values for 'env': label is '" l
                "', plugin.env is '" p "'") as [? ?].
    done.
  - intros app (Hi & He & _ & ->)%newApplicationFromRaw_Ok. simpl.
    rewrite Hil, Hel, Hip, Hep in *.
    unfold Spec.conflict, Spec.present, Spec.resolved in *.
    repeat case_decide; repeat split; intros; try done;
      try (destruct (decide (il = ip)); [done|exfalso; tauto]);
      try (destruct (decide (el = ep)); [done|exfalso; tauto]);
      try (apply dec_stable; tauto).
Qed.

(** The test "conflict when both instance sources differ": the error and
    its text. *)
Example conflict_test_input :
  newApplicationFromRaw Cases.conflictRaw
  = Err (ConflictInstance "from-label" "from-plugin")
  ∧ Error (ConflictInstance "from-label" "from-plugin")
    = "conflicting values for 'instance': label is 'from-label', plugin.env is 'from-plugin'".
Proof. split; vm_compute; reflexivity. Qed.

(** C8. On success repoURL is the [rawRepository] annotation when present
    and non-empty and the spec field otherwise, and path is the [rawPath]
    annotation whenever the key exists, else the spec field, else ["."];
    resolution fails when both repository sources are empty, with the
    error that names both once no conflict stands in the way, and the path
    never makes it fail. *)
Theorem repo_path_fallback `{SliceSort} (raw : rawApplication) :
  let il := labelOf raw "instance" in
  let ip := Spec.lastExtracted "WERF_SET_INSTANCE" (Spec.pluginEnvOf raw) in
  let el := labelOf raw "env" in
  let ep := Spec.lastExtracted "WERF_SET_ENV" (Spec.pluginEnvOf raw) in
  (∀ app, newApplicationFromRaw raw = Ok app →
     Application.RepoURL app = Spec.repoOf raw
     ∧ Application.Path app = Spec.pathOf raw)
  ∧ (Spec.repoOf raw = "" → is_Err (newApplicationFromRaw raw))
  ∧ (newApplicationFromRaw raw = Err RepoEmpty
     ↔ ¬ Spec.conflict il ip ∧ ¬ Spec.conflict el ep ∧ Spec.repoOf raw = "")
  ∧ (is_Ok (newApplicationFromRaw raw)
     ↔ ¬ Spec.conflict il ip ∧ ¬ Spec.conflict el ep ∧ Spec.repoOf raw ≠ "")
  ∧ Error RepoEmpty =
    "both 'rawRepository' annotation and 'spec.source.repoURL' are empty".
Proof.
  intros il ip el ep.
  assert (Hip : instanceFromPlugin (envLoopRun raw) = ip)
    by apply envLoopRun_instance.
  assert (Hep : envFromPlugin (envLoopRun raw) = ep) by apply envLoopRun_env.
  split; [|split; [|split; [|split]]].
  - intros app (_ & _ & _ & ->)%newApplicationFromRaw_Ok. done.
  - intros Hr. rewrite newApplicationFromRaw_eq. cbv zeta.
    repeat case_decide; done.
  - rewrite newApplicationFromRaw_eq. cbv zeta. rewrite Hip, Hep. fold il el.
    repeat case_decide; split; try done; try discriminate; tauto.
  - rewrite newApplicationFromRaw_eq. cbv zeta. rewrite Hip, Hep. fold il el.
    repeat case_decide; simpl; split; try done; tauto.
  - done.
Qed.

Lemma NoDup_fmap_elem_inj {A B} (f : A → B) (l : list A) x y :
  NoDup (f <$> l) → x ∈ l → y ∈ l → f x = f y → x = y.
Proof.
  induction l as [|a l IH]; simpl; [by intros _ ?%elem_of_nil|].
  rewrite NoDup_cons. intros [Ha Hl] Hx Hy Hf.
  apply elem_of_cons in Hx as [->|Hx]; apply elem_of_cons in Hy as [->|Hy];
    [done| | |by apply IH].
  - exfalso. apply Ha. rewrite Hf. by apply list_elem_of_fmap_2.
  - exfalso. apply Ha. rewrite <- Hf. by apply list_elem_of_fmap_2.
Qed.

(** With pairwise distinct keys there is one ascending rearrangement. *)
Lemma sorted_rearrangement_unique {A} (key : A → Z) (l l1 l2 : list A) :
  NoDup (key <$> l) →
  l1 ≡ₚ l → StronglySorted (λ a b, key a ≤ key b) l1 →
  l2 ≡ₚ l → StronglySorted (λ a b, key a ≤ key b) l2 →
  l1 = l2.
Proof.
  intros Hnd Hp1 Hs1 Hp2 Hs2.
  apply (StronglySorted_unique_strong (λ a b, key a ≤ key b)); try done.
  - intros x1 x2 Hx1 Hx2 H12 H21.
    apply (NoDup_fmap_elem_inj key l); [done|by rewrite <- Hp1|by rewrite <- Hp2|lia].
  - by rewrite Hp1, Hp2.
Qed.

(** C5, the claim as stated fails: the suffix [-1] is read as an index,
    and the file of [WERF_VALUES_-1] is emitted, ahead of index 0; the
    values of the variables with a non-negative index are one file, not
    two. *)
Lemma negative_index_is_kept :
  ∃ app,
    newApplicationFromRaw Cases.negativeIndexRaw = Ok app
    ∧ Application.ValuesFiles app = ["values/first.yaml"; "values/common.yaml"]
    ∧ omap Spec.nonNegativeIndexedValueOf (Spec.pluginEnvOf Cases.negativeIndexRaw)
      = [{| index := 0; path := "values/common.yaml" |}]
    ∧ ¬ (Application.ValuesFiles app ≡ₚ
         path <$> omap Spec.nonNegativeIndexedValueOf
                    (Spec.pluginEnvOf Cases.negativeIndexRaw)).
Proof.
  eexists. split; [vm_compute; reflexivity|].
  split; [reflexivity|]. split; [vm_compute; reflexivity|].
  intros Hp%Permutation_length. vm_compute in Hp. discriminate.
Qed.

(** C5, amended. With [sort.Slice] sorting as documented, valuesFiles are
    the values of the variables named [WERF_VALUES_] followed by an integer
    that [strconv.Atoi] reads (a sign is allowed, so the index may be
    negative; any other suffix drops the variable), in ascending order of
    that index.  When the indices are pairwise distinct this is the order
    insertion sort gives; nothing is said of the order among equal
    indices. *)
Theorem valuesFiles_sorted_by_index `{S : SliceSort} (HS : SliceSortSpec S)
    (raw : rawApplication) (app : Application) :
  newApplicationFromRaw raw = Ok app →
  let candidates := omap Spec.indexedValueOf (Spec.pluginEnvOf raw) in
  (∃ ivs, ivs ≡ₚ candidates
          ∧ StronglySorted (λ a b, index a ≤ index b) ivs
          ∧ Application.ValuesFiles app = path <$> ivs)
  ∧ (NoDup (index <$> candidates) →
     Application.ValuesFiles app =
     path <$> insertionSort (λ i j, bool_decide (index i < index j)) candidates).
Proof.
  intros (_ & _ & _ & ->)%newApplicationFromRaw_Ok candidates. simpl.
  rewrite envLoopRun_indexed. fold candidates. split.
  - eexists. split; [apply Slice_perm|]. split; [apply Slice_sorted|done].
  - intros Hnd. f_equal.
    apply (sorted_rearrangement_unique index candidates); try done.
    + apply Slice_perm.
    + apply Slice_sorted.
    + apply insertionSort_perm.
    + apply insertionSort_sorted.
Qed.

(** C5, amended, at the input of the test "extracts and sorts values files
    correctly", with insertion sort for [sort.Slice]. *)
Lemma valuesFiles_sorted_by_index_witness :
  let candidates := omap Spec.indexedValueOf (Spec.pluginEnvOf Cases.valuesRaw) in
  (∃ ivs, ivs ≡ₚ candidates
          ∧ StronglySorted (λ a b, index a ≤ index b) ivs
          ∧ ["values/common.yaml"; "values/overlay.yaml"; "values/prod.yaml"]
            = path <$> ivs)
  ∧ (NoDup (index <$> candidates) →
     ["values/common.yaml"; "values/overlay.yaml"; "values/prod.yaml"] =
     path <$> insertionSort (λ i j, bool_decide (index i < index j)) candidates).
Proof.
  apply (valuesFiles_sorted_by_index insertionSlice_spec Cases.valuesRaw
           {| Application.Name := "test-app";
              Application.Instance := "";
              Application.Env := "";
              Application.RepoURL := "https://default.repo";
              Application.Path := ".";
              Application.TargetRevision := "main";
              Application.PluginEnv := [Cases.envVar "SOME_OTHER_VAR" "ignore-me"];
              Application.ValuesFiles :=
                ["values/common.yaml"; "values/overlay.yaml"; "values/prod.yaml"];
              Application.Setters := None |}).
  vm_compute. reflexivity.
Defined.

(** *** [ParseApplications] *)

Lemma decodeLoop_Ok `{SliceSort} decoder finalApps apps :
  decodeLoop decoder finalApps = (apps, None) ↔
  ∃ raws new,
    decoder = Ok <$> raws
    ∧ Forall2 (λ raw app, newApplicationFromRaw raw = Ok app)
        (filter (λ raw, isApplication raw = true) raws) new
    ∧ apps = (finalApps ++ new)%list.
Proof.
  revert finalApps.
  induction decoder as [|[rawApp|err] decoder IH]; intros finalApps; simpl.
  - split.
    + intros [= <-]. exists [], []. by rewrite app_nil_r.
    + intros (raws & new & Hd & Hf & ->).
      symmetry in Hd. apply fmap_nil_inv in Hd as ->.
      rewrite filter_nil in Hf. apply Forall2_nil_inv_l in Hf as ->.
      by rewrite app_nil_r.
  - destruct (isApplication rawApp) eqn:Hk.
    + destruct (newApplicationFromRaw rawApp) as [cleanApp|e] eqn:Hn.
      * rewrite IH. split.
        -- intros (raws & new & -> & Hf & ->).
           exists (rawApp :: raws), (cleanApp :: new). split; [done|].
           rewrite filter_cons, decide_True by done. split.
           ++ by constructor.
           ++ by rewrite <- app_assoc.
        -- intros (raws & new & Hd & Hf & ->).
           destruct raws as [|raw0 raws]; [done|]. injection Hd as <- ->.
           rewrite filter_cons, decide_True in Hf by done.
           apply Forall2_cons_inv_l in Hf as (app0 & new' & Hr & Hf & ->).
           rewrite Hn in Hr. injection Hr as <-.
           exists raws, new'. split; [done|]. split; [done|].
           by rewrite <- app_assoc.
      * split; [done|].
        intros (raws & new & Hd & Hf & ->).
        destruct raws as [|raw0 raws]; [done|]. injection Hd as <- ->.
        rewrite filter_cons, decide_True in Hf by done.
        apply Forall2_cons_inv_l in Hf as (app0 & new' & Hr & Hf & ->).
        by rewrite Hn in Hr.
    + rewrite IH. split.
      * intros (raws & new & -> & Hf & ->).
        exists (rawApp :: raws), new. split; [done|].
        rewrite filter_cons, decide_False by (by rewrite Hk). done.
      * intros (raws & new & Hd & Hf & ->).
        destruct raws as [|raw0 raws]; [done|]. injection Hd as <- ->.
        rewrite filter_cons, decide_False in Hf by (by rewrite Hk).
        by exists raws, new.
  - split; [done|].
    intros (raws & new & Hd & _). by destruct raws.
Qed.

Lemma decodeLoop_Err `{SliceSort} decoder finalApps apps err :
  decodeLoop decoder finalApps = (apps, Some err) → apps = [].
Proof.
  revert finalApps.
  induction decoder as [|[rawApp|e] decoder IH]; intros finalApps; simpl.
  - done.
  - destruct (isApplication rawApp); [|by apply IH].
    destruct (newApplicationFromRaw rawApp); [by apply IH|].
    by intros [= <- _].
  - by intros [= <- _].
Qed.

Lemma decodeLoop_malformed `{SliceSort} decoder finalApps cause :
  Err cause ∈ decoder →
  ∃ err, decodeLoop decoder finalApps = ([], Some err).
Proof.
  intros Hin. destruct (decodeLoop decoder finalApps) as [apps [err|]] eqn:Hd.
  - apply decodeLoop_Err in Hd as Ha. subst. by exists err.
  - apply decodeLoop_Ok in Hd as (raws & new & -> & _).
    apply list_elem_of_fmap in Hin as (raw & ? & _). done.
Qed.

(** *** Which documents are Applications *)

Lemma isApplication_document raw :
  isApplication raw = true ↔ Spec.isApplicationDocument raw.
Proof.
  unfold isApplication, Spec.isApplicationDocument.
  rewrite andb_true_iff, !bool_decide_eq_true. done.
Qed.

Lemma filter_isApplication (raws : list rawApplication) :
  filter (λ raw, isApplication raw = true) raws
  = filter Spec.isApplicationDocument raws.
Proof.
  induction raws as [|raw raws IH]; [done|].
  rewrite !filter_cons, IH.
  destruct (decide (isApplication raw = true)) as [Hk|Hk];
    destruct (decide (Spec.isApplicationDocument raw)) as [Hd|Hd];
    try done; exfalso.
  - by apply Hd, isApplication_document.
  - by apply Hk, isApplication_document.
Qed.

(** C9, the claim as stated fails: every document of the stream decodes
    and both are Applications, the first of which resolves; the second does
    not resolve, and the call returns that error and no descriptor, not
    the descriptor of the first. *)
Lemma unresolved_application_fails_the_call :
  Forall Spec.isApplicationDocument MoreCases.unresolvedDocuments
  ∧ is_Ok (newApplicationFromRaw Cases.baseRawApp)
  ∧ ParseApplications (Ok <$> MoreCases.unresolvedDocuments)
    = ([], Some (InvalidApplication "test-app"
                   (ConflictInstance "from-label" "from-plugin"))).
Proof.
  split; [by repeat constructor|]. split; vm_compute; done.
Qed.

(** C9, amended. [ParseApplications] returns without error exactly when
    every document decodes and every document whose API version is
    [argoproj.io/v1alpha1] and whose kind is [Application] resolves; it
    then returns the descriptors of exactly these documents, one for one
    and in their order, the other documents being skipped.  A document
    that does not decode, or an Application that does not resolve,
    wherever it stands, makes the call return an error, and whenever an
    error is returned no descriptor is. *)
Theorem ParseApplications_application_documents `{SliceSort}
    (decoder : list (result string rawApplication)) :
  (∀ apps,
     ParseApplications decoder = (apps, None) ↔
     ∃ raws,
       decoder = Ok <$> raws
       ∧ Forall2 (λ raw app, newApplicationFromRaw raw = Ok app)
           (filter Spec.isApplicationDocument raws) apps)
  ∧ (∀ apps err, ParseApplications decoder = (apps, Some err) → apps = [])
  ∧ (∀ cause, Err cause ∈ decoder →
       ∃ err, ParseApplications decoder = ([], Some err))
  ∧ (∀ raw, Ok raw ∈ decoder →
       Spec.isApplicationDocument raw →
       is_Err (newApplicationFromRaw raw) →
       ∃ err, ParseApplications decoder = ([], Some err)).
Proof.
  unfold ParseApplications. split; [|split; [|split]].
  - intros apps. rewrite decodeLoop_Ok. split.
    + intros (raws & new & -> & Hf & ->). exists raws.
      by rewrite <- filter_isApplication.
    + intros (raws & -> & Hf). exists raws, apps.
      by rewrite filter_isApplication.
  - intros apps err. apply decodeLoop_Err.
  - intros cause. apply decodeLoop_malformed.
  - intros raw Hin Hdoc Herr.
    destruct (decodeLoop decoder []) as [apps [err|]] eqn:Hd.
    + apply decodeLoop_Err in Hd as Ha. subst. by exists err.
    + exfalso. apply decodeLoop_Ok in Hd as (raws & new & -> & Hf & _).
      apply list_elem_of_fmap in Hin as (raw' & [= <-] & Hin).
      assert (Hfil : raw ∈ filter (λ raw, isApplication raw = true) raws).
      { apply list_elem_of_filter. split; [|done].
        by apply isApplication_document. }
      apply list_elem_of_lookup in Hfil as [i Hi].
      destruct (Forall2_lookup_l _ _ _ _ _ Hf Hi) as (app & _ & Hr).
      by rewrite Hr in Herr.
Qed.

(** The promise of [sort.Slice] does not settle the order of equal
    indices: under a sort that keeps it, the later of two files with the
    same index comes out first. *)
Lemma tied_indices_may_swap :
  SliceSortSpec reversingSlice
  ∧ ∃ app,
      @newApplicationFromRaw reversingSlice Cases.tiedIndexRaw = Ok app
      ∧ Application.ValuesFiles app = ["values/b.yaml"; "values/a.yaml"].
Proof.
  split; [apply reversingSlice_spec|].
  eexists. split; [vm_compute; reflexivity|]. done.
Qed.

(** ** The orchestrator *)

(** C7, the claim as stated fails: [url.Parse] rejects an address that
    starts with a colon, and [convertHTTPtoSSH] then returns that error,
    not the address. *)
Lemma unparseable_url_is_an_error :
  Url.Parse "://git.example.com/org/repo" = Err Url.MissingProtocolScheme
  ∧ convertHTTPtoSSH "://git.example.com/org/repo"
    = Err (CouldNotParseURL Url.MissingProtocolScheme)
  ∧ ¬ is_Ok (convertHTTPtoSSH "://git.example.com/org/repo").
Proof. split; [|split]; [vm_compute; reflexivity..|]. vm_compute. tauto. Qed.

(** C7, amended. Whatever [url.Parse] answers, [convertHTTPtoSSH] returns
    the address unchanged when it starts with [git@] or parses with a
    scheme other than http and https, and the rewritten address when the
    scheme is one of these two; it returns an error exactly when the
    address does not start with [git@] and [url.Parse] rejects it. *)
Theorem convertHTTPtoSSH_cases `{P : UrlParse} (httpURL : string) :
  (Strings.HasPrefix httpURL "git@" = true →
     convertHTTPtoSSH httpURL = Ok httpURL)
  ∧ (Strings.HasPrefix httpURL "git@" = false →
     (∀ err, url_Parse httpURL = Err err →
        convertHTTPtoSSH httpURL = Err (CouldNotParseURL err))
     ∧ (∀ u, url_Parse httpURL = Ok u →
          Url.Scheme u ≠ "https" → Url.Scheme u ≠ "http" →
          convertHTTPtoSSH httpURL = Ok httpURL)
     ∧ (∀ u, url_Parse httpURL = Ok u →
          Url.Scheme u = "https" ∨ Url.Scheme u = "http" →
          convertHTTPtoSSH httpURL =
          Ok ("git@" +:+ Url.Host u +:+ ":"
              +:+ Strings.TrimPrefix (Url.Path u) "/")))
  ∧ (is_Err (convertHTTPtoSSH httpURL)
     ↔ Strings.HasPrefix httpURL "git@" = false ∧ is_Err (url_Parse httpURL)).
Proof.
  unfold convertHTTPtoSSH.
  destruct (Strings.HasPrefix httpURL "git@") eqn:Hp.
  { split; [done|]. split; [done|]. simpl. split; [done|by intros [? _]]. }
  split; [done|]. split.
  - intros _. split; [|split].
    + by intros err ->.
    + intros u -> H1 H2.
      apply String.eqb_neq in H1, H2. by rewrite H1, H2.
    + intros u -> [Hs|Hs]; rewrite Hs; done.
  - destruct (url_Parse httpURL) as [u|err]; simpl; [|done].
    destruct (negb _ && negb _); simpl; split; try done; by intros [_ ?].
Qed.

(** C4. Two descriptors of one repository and revision, hence of one cache
    key: when both goroutines look the key up before either stores its
    clone, the clone is made twice for that key, into two directories, and
    [Run] reports no error. *)
Theorem racing_workers_clone_twice :
  ∃ r,
    execAll Cases.racingSchedule
      (runInit "/tmp/argo-charts-1" "rendered" [Cases.appOne; Cases.appTwo])
    = Some r
    ∧ allDone r = true
    ∧ runResult r = None
    ∧ convertHTTPtoSSH (Application.RepoURL Cases.appOne)
      = Ok "git@git.example.com:org/repo"
    ∧ convertHTTPtoSSH (Application.RepoURL Cases.appTwo)
      = Ok "git@git.example.com:org/repo"
    ∧ clonesOf "git@git.example.com:org/repo@main" (calls r) =
      [GitClone "git@git.example.com:org/repo" "main"
         "/tmp/argo-charts-1/clone-1"
         (Git.cloneOptions "git@git.example.com:org/repo" "main");
       GitClone "git@git.example.com:org/repo" "main"
         "/tmp/argo-charts-1/clone-2"
         (Git.cloneOptions "git@git.example.com:org/repo" "main")].
Proof.
  eexists. split; [vm_compute; reflexivity|].
  repeat split; vm_compute; reflexivity.
Qed.

(** When the first goroutine has returned before the second starts, the
    second finds the clone and none is made again. *)
Lemma sequential_workers_clone_once :
  ∃ r,
    execAll Cases.sequentialSchedule
      (runInit "/tmp/argo-charts-1" "rendered" [Cases.appOne; Cases.appTwo])
    = Some r
    ∧ allDone r = true
    ∧ length (clonesOf "git@git.example.com:org/repo@main" (calls r)) = 1%nat.
Proof.
  eexists. split; [vm_compute; reflexivity|].
  split; vm_compute; reflexivity.
Qed.

(** The revision is copied unchecked, and an empty one leaves the cache
    key ending in [@]. *)
Lemma newApplicationFromRaw_TargetRevision `{SliceSort} raw app :
  newApplicationFromRaw raw = Ok app →
  Application.TargetRevision app =
  rawApplication.TargetRevision (rawApplication.Source (rawApplication.Spec raw)).
Proof. intros (_ & _ & _ & ->)%newApplicationFromRaw_Ok. done. Qed.

Lemma cacheKey_empty_revision sshURL app :
  Application.TargetRevision app = "" → cacheKey sshURL app = sshURL +:+ "@".
Proof. unfold cacheKey. by intros ->. Qed.

(** C10. A document without a target revision resolves, to a descriptor
    whose revision is empty; its cache key ends in [@], and the clone is
    asked for the revision [""], the branch reference [refs/heads/]. *)
Theorem empty_revision_reaches_clone :
  ∃ app sshURL r,
    rawApplication.TargetRevision
      (rawApplication.Source (rawApplication.Spec Cases.noRevisionRaw)) = ""
    ∧ newApplicationFromRaw Cases.noRevisionRaw = Ok app
    ∧ Application.TargetRevision app = ""
    ∧ convertHTTPtoSSH (Application.RepoURL app) = Ok sshURL
    ∧ cacheKey sshURL app = sshURL +:+ "@"
    ∧ cacheKey sshURL app = "git@git.example.com:org/repo@"
    ∧ execAll Cases.firstCloneSchedule
        (runInit "/tmp/argo-charts-1" "rendered" [app]) = Some r
    ∧ calls r =
      [GitClone sshURL "" "/tmp/argo-charts-1/clone-1"
         {| Git.URL := sshURL;
            Git.ReferenceName := "refs/heads/";
            Git.SingleBranch := true;
            Git.Depth := 1 |}].
Proof.
  eexists _, _, _.
  split; [reflexivity|].
  split; [vm_compute; reflexivity|].
  split; [reflexivity|].
  split; [vm_compute; reflexivity|].
  split; [reflexivity|].
  split; [reflexivity|].
  split; [vm_compute; reflexivity|].
  reflexivity.
Qed.

(** * Further properties of the code *)

Import Workers Addresses.

(** ** More on the resolver *)

Lemma Cut_absent s sep :
  Strings.ContainsByte s sep = false → Strings.Cut s sep = (s, "", false).
Proof.
  induction s as [|c s IH]; simpl; [done|].
  destruct (Ascii.eqb c sep); [done|]. intros Hs. by rewrite IH.
Qed.

Lemma Cut_first k sep v :
  Strings.ContainsByte k sep = false →
  Strings.Cut (k +:+ String sep v) sep = (k, v, true).
Proof.
  induction k as [|c k IH].
  - intros _. change ("" +:+ String sep v) with (String sep v).
    simpl. by rewrite Ascii.eqb_refl.
  - change (String c k +:+ String sep v) with (String c (k +:+ String sep v)).
    simpl. destruct (Ascii.eqb c sep); [done|]. intros Hk. by rewrite IH.
Qed.

(** X1. [extractValueFromWerfSet] returns what follows the first [=]: for a
    key without [=] the value is returned whole, further [=] signs
    included, and a string without any [=] gives the empty string. *)
Theorem extractValueFromWerfSet_first_eq (k : string) :
  Strings.ContainsByte k "=" = false →
  extractValueFromWerfSet k = ""
  ∧ ∀ v, extractValueFromWerfSet (k +:+ "=" +:+ v) = v.
Proof.
  intros Hk. unfold extractValueFromWerfSet, Strings.SplitN2. split.
  - by rewrite Cut_absent.
  - intros v. change ("=" +:+ v) with (String "=" v).
    by rewrite Cut_first.
Qed.

(** X1 at the key [global.instance]. *)
Lemma extractValueFromWerfSet_first_eq_witness :
  extractValueFromWerfSet "global.instance" = ""
  ∧ ∀ v, extractValueFromWerfSet ("global.instance" +:+ "=" +:+ v) = v.
Proof. apply extractValueFromWerfSet_first_eq. reflexivity. Defined.

(** X2. On success [PluginEnv] is the plugin environment without the
    variables whose name starts with [WERF_VALUES_], in its order: such a
    variable is never passed on, parsed index or not, and every other
    variable is, with name and value unchanged. *)
Theorem pluginEnv_drops_values_prefix `{SliceSort} (raw : rawApplication)
    (app : Application) :
  newApplicationFromRaw raw = Ok app →
  Application.PluginEnv app =
    filter (λ envVar, Spec.hasValuesPrefix envVar = false) (Spec.pluginEnvOf raw)
  ∧ (∀ envVar, envVar ∈ Application.PluginEnv app
       ↔ envVar ∈ Spec.pluginEnvOf raw
         ∧ Strings.HasPrefix (EnvVar.Name envVar) "WERF_VALUES_" = false).
Proof.
  intros Hr. apply newApplicationFromRaw_PluginEnv in Hr. split; [done|].
  intros envVar. rewrite Hr, list_elem_of_filter. unfold Spec.hasValuesPrefix.
  tauto.
Qed.

(** X2 at the input of the test "extracts and sorts values files
    correctly". *)
Lemma pluginEnv_drops_values_prefix_witness :
  [Cases.envVar "SOME_OTHER_VAR" "ignore-me"] =
    filter (λ envVar, Spec.hasValuesPrefix envVar = false)
      (Spec.pluginEnvOf Cases.valuesRaw)
  ∧ (∀ envVar, envVar ∈ [Cases.envVar "SOME_OTHER_VAR" "ignore-me"]
       ↔ envVar ∈ Spec.pluginEnvOf Cases.valuesRaw
         ∧ Strings.HasPrefix (EnvVar.Name envVar) "WERF_VALUES_" = false).
Proof.
  apply (pluginEnv_drops_values_prefix Cases.valuesRaw
           {| Application.Name := "test-app";
              Application.Instance := "";
              Application.Env := "";
              Application.RepoURL := "https://default.repo";
              Application.Path := ".";
              Application.TargetRevision := "main";
              Application.PluginEnv := [Cases.envVar "SOME_OTHER_VAR" "ignore-me"];
              Application.ValuesFiles :=
                ["values/common.yaml"; "values/overlay.yaml"; "values/prod.yaml"];
              Application.Setters := None |}).
  vm_compute. reflexivity.
Defined.

(** *** [ParseApplications] on streams put together *)

Lemma decodeLoop_acc `{SliceSort} decoder finalApps :
  decodeLoop decoder finalApps =
  match decodeLoop decoder [] with
  | (apps, None) => ((finalApps ++ apps)%list, None)
  | (_, Some err) => ([], Some err)
  end.
Proof.
  revert finalApps.
  induction decoder as [|[rawApp|e] decoder IH]; intros finalApps; simpl.
  - by rewrite app_nil_r.
  - destruct (isApplication rawApp); [|apply IH].
    destruct (newApplicationFromRaw rawApp) as [cleanApp|]; [|done].
    rewrite IH, (IH [cleanApp]).
    destruct (decodeLoop decoder []) as [apps [err|]]; [done|].
    by rewrite <- app_assoc.
  - done.
Qed.

Lemma decodeLoop_app `{SliceSort} decoder1 decoder2 finalApps :
  decodeLoop (decoder1 ++ decoder2) finalApps =
  match decodeLoop decoder1 finalApps with
  | (apps, None) => decodeLoop decoder2 apps
  | (_, Some err) => ([], Some err)
  end.
Proof.
  revert finalApps.
  induction decoder1 as [|[rawApp|e] decoder1 IH]; intros finalApps; simpl.
  - done.
  - destruct (isApplication rawApp); [|apply IH].
    destruct (newApplicationFromRaw rawApp); [apply IH|done].
  - done.
Qed.

Lemma ParseApplications_append `{SliceSort}
    (decoder1 decoder2 : list (result string rawApplication)) :
  ParseApplications (decoder1 ++ decoder2) =
  match ParseApplications decoder1 with
  | (apps1, None) =>
      match ParseApplications decoder2 with
      | (apps2, None) => ((apps1 ++ apps2)%list, None)
      | (_, Some err) => ([], Some err)
      end
  | (_, Some err) => ([], Some err)
  end.
Proof.
  unfold ParseApplications. rewrite decodeLoop_app.
  destruct (decodeLoop decoder1 []) as [apps1 [err|]]; [done|].
  apply decodeLoop_acc.
Qed.

(** X3. Parsing two streams put one after the other gives the descriptors
    of the first followed by those of the second; an error of the first
    is the result whatever the second holds, and an error of the second
    discards the descriptors of the first. *)
Theorem ParseApplications_app `{SliceSort}
    (decoder1 decoder2 : list (result string rawApplication)) :
  ParseApplications (decoder1 ++ decoder2) =
  match ParseApplications decoder1 with
  | (apps1, None) =>
      match ParseApplications decoder2 with
      | (apps2, None) => ((apps1 ++ apps2)%list, None)
      | (_, Some err) => ([], Some err)
      end
  | (_, Some err) => ([], Some err)
  end.
Proof. apply ParseApplications_append. Qed.

(** X4. The first document that fails decides the error: when the
    documents before it decode and, where they are Applications, resolve,
    a document that does not decode gives the decoding error with its
    cause, and an Application that does not resolve gives the error with
    that application's name and the resolver's error; what comes after is
    not looked at. *)
Theorem ParseApplications_first_failure `{SliceSort}
    (good : list rawApplication)
    (rest : list (result string rawApplication)) :
  Forall (λ raw, isApplication raw = true → is_Ok (newApplicationFromRaw raw))
    good →
  (∀ cause,
     ParseApplications ((Ok <$> good) ++ Err cause :: rest)
     = ([], Some (DecodeFailed cause)))
  ∧ (∀ bad err,
       isApplication bad = true → newApplicationFromRaw bad = Err err →
       ParseApplications ((Ok <$> good) ++ Ok bad :: rest)
       = ([], Some (InvalidApplication
                      (rawApplication.Name (rawApplication.Metadata bad)) err))).
Proof.
  intros Hgood.
  assert (Hg : ∃ apps, ParseApplications (Ok <$> good) = (apps, None)).
  { unfold ParseApplications. generalize (@nil Application).
    induction Hgood as [|raw good Hraw _ IH]; intros acc; simpl; [by eexists|].
    destruct (isApplication raw); [|apply IH].
    destruct (newApplicationFromRaw raw); [apply IH|].
    by destruct Hraw. }
  destruct Hg as [apps Hg]. split.
  - intros cause. rewrite ParseApplications_append, Hg. done.
  - intros bad err Hk Hbad. rewrite ParseApplications_append, Hg.
    unfold ParseApplications. simpl. by rewrite Hk, Hbad.
Qed.

(** X4 with the test's base document first and then a document that does
    not decode, or the test's conflicting application. *)
Lemma ParseApplications_first_failure_witness :
  (∀ cause,
     ParseApplications ((Ok <$> [Cases.baseRawApp]) ++ Err cause :: [])
     = ([], Some (DecodeFailed cause)))
  ∧ (∀ bad err,
       isApplication bad = true → newApplicationFromRaw bad = Err err →
       ParseApplications ((Ok <$> [Cases.baseRawApp]) ++ Ok bad :: [])
       = ([], Some (InvalidApplication
                      (rawApplication.Name (rawApplication.Metadata bad)) err))).
Proof.
  apply (ParseApplications_first_failure [Cases.baseRawApp] []).
  constructor; [|constructor]. intros _. vm_compute. exact I.
Defined.

Lemma fmap_Ok_inj {E A} (l1 l2 : list A) :
  @Ok E A <$> l1 = Ok <$> l2 → l1 = l2.
Proof.
  revert l2. induction l1 as [|a l1 IH]; intros [|b l2]; simpl; try done.
  intros [= -> Hl]. f_equal. by apply IH.
Qed.

(** X5. When [ParseApplications] succeeds there are as many descriptors as
    documents of API version [argoproj.io/v1alpha1] and kind
    [Application], and the descriptors carry, in order, the names and the
    target revisions of these documents. *)
Theorem ParseApplications_names `{SliceSort} (raws : list rawApplication)
    (apps : list Application) :
  ParseApplications (Ok <$> raws) = (apps, None) →
  let documents := filter Spec.isApplicationDocument raws in
  length apps = length documents
  ∧ Application.Name <$> apps
    = (λ raw, rawApplication.Name (rawApplication.Metadata raw)) <$> documents
  ∧ Application.TargetRevision <$> apps
    = (λ raw, rawApplication.TargetRevision
                (rawApplication.Source (rawApplication.Spec raw)))
      <$> documents.
Proof.
  intros Hp documents.
  unfold ParseApplications in Hp.
  apply decodeLoop_Ok in Hp as (raws' & new & Heq & Hf & ->). simpl.
  apply fmap_Ok_inj in Heq as <-.
  rewrite filter_isApplication in Hf. fold documents in Hf.
  induction Hf as [|raw app ds as' Hr _ IH]; [done|].
  apply newApplicationFromRaw_Ok in Hr as (_ & _ & _ & ->).
  destruct IH as (IH1 & IH2 & IH3). rewrite !fmap_cons. simpl.
  by rewrite IH1, IH2, IH3.
Qed.

(** ** More on the orchestrator *)

(** X6. The override values of the child render: a non-empty [Env] is
    stored under [global.env] and a non-empty [Instance] under
    [global.instance], over any setter of that name; every other key has
    the value [Setters] gives it. *)
Theorem werfSetValues_lookup (app : Application) (k : string) :
  werfSetValues app !! k =
  if decide (k = "global.env" ∧ Application.Env app ≠ "")
  then Some (Application.Env app)
  else if decide (k = "global.instance" ∧ Application.Instance app ≠ "")
  then Some (Application.Instance app)
  else default ∅ (Application.Setters app) !! k.
Proof.
  unfold werfSetValues. set (m0 := default ∅ (Application.Setters app)).
  destruct (decide (Application.Env app ≠ "")) as [He|He];
    destruct (decide (Application.Instance app ≠ "")) as [Hi|Hi];
    rewrite ?(bool_decide_true (Application.Env app ≠ "")),
            ?(bool_decide_false (Application.Env app ≠ "")),
            ?(bool_decide_true (Application.Instance app ≠ "")),
            ?(bool_decide_false (Application.Instance app ≠ "")) by done;
    destruct (decide (k = "global.env")) as [Hk1|Hk1];
    destruct (decide (k = "global.instance")) as [Hk2|Hk2];
    try (exfalso; congruence); try rewrite Hk1; try rewrite Hk2;
    rewrite ?lookup_insert_eq, ?lookup_insert_ne by congruence;
    rewrite ?lookup_insert_eq, ?lookup_insert_ne by congruence;
    repeat case_decide; try done; try (exfalso; tauto);
    repeat match goal with H : _ ∧ _ |- _ => destruct H end; discriminate.
Qed.

Lemma HasPrefix_append (prefix s : string) :
  Strings.HasPrefix (prefix +:+ s) prefix = true.
Proof.
  induction prefix as [|c prefix IH]; [by destruct s|].
  change (String c prefix +:+ s) with (String c (prefix +:+ s)).
  simpl. by rewrite Ascii.eqb_refl.
Qed.

(** X7. Normalizing twice changes nothing: an address that
    [convertHTTPtoSSH] returns is returned unchanged when given back to
    it, whatever [url.Parse] does. *)
Theorem convertHTTPtoSSH_idempotent `{P : UrlParse} (httpURL sshURL : string) :
  convertHTTPtoSSH httpURL = Ok sshURL →
  convertHTTPtoSSH sshURL = Ok sshURL.
Proof.
  intros Hc. pose proof Hc as Hc'. unfold convertHTTPtoSSH in Hc.
  destruct (Strings.HasPrefix httpURL "git@"); [by injection Hc as <-|].
  destruct (url_Parse httpURL) as [u|]; [|done].
  destruct (negb _ && negb _); injection Hc as <-; [done|].
  unfold convertHTTPtoSSH. by rewrite HasPrefix_append.
Qed.

Lemma convertHTTPtoSSH_idempotent_witness :
  convertHTTPtoSSH "git@git.example.com:org/repo"
  = Ok "git@git.example.com:org/repo".
Proof.
  apply (convertHTTPtoSSH_idempotent "https://git.example.com/org/repo").
  vm_compute. reflexivity.
Defined.

(** *** What every move of [Run] keeps *)

Lemma exec_Start_inv `{P : UrlParse} r r' :
  exec Start r = Some r' →
  ∃ app pending',
    pending r = app :: pending'
    ∧ (running r < maxConcurrency)%nat
    ∧ r' = {| pending := pending';
              workers := workers r ++ [Queued app];
              state := state r;
              errChan := errChan r;
              calls := calls r |}.
Proof.
  unfold exec. destruct (pending r) as [|app pending']; [done|].
  case_bool_decide; [|done]. intros [= <-]. by exists app, pending'.
Qed.

Lemma exec_Step_inv `{P : UrlParse} i ans r r' :
  exec (Step i ans) r = Some r' →
  ∃ w w' st' cs,
    workers r !! i = Some w
    ∧ finished w = false
    ∧ processStep w ans (state r) = (w', st', cs)
    ∧ r' = {| pending := pending r;
              workers := <[i := w']> (workers r);
              state := st';
              errChan := match w' with
                         | Failed err => errChan r ++ [err]
                         | _ => errChan r
                         end;
              calls := calls r ++ cs |}.
Proof.
  unfold exec. destruct (workers r !! i) as [w|]; [|done].
  destruct (finished w) eqn:Hf; [done|].
  destruct (processStep w ans (state r)) as [[w' st'] cs] eqn:Hs.
  intros [= <-]. by exists w, w', st', cs.
Qed.

Lemma execAll_invariant `{P : UrlParse} (Inv : run → Prop) :
  (∀ c r r', Inv r → exec c r = Some r' → Inv r') →
  ∀ cs r r', Inv r → execAll cs r = Some r' → Inv r'.
Proof.
  intros Hstep cs. induction cs as [|c cs IH]; intros r r' Hr; simpl.
  - by intros [= <-].
  - destruct (exec c r) as [r1|] eqn:He; [|done].
    apply IH. by eapply Hstep.
Qed.

Lemma filter_length_insert {A} (Q : A → Prop) `{∀ x, Decision (Q x)}
    (l : list A) (i : nat) (x y : A) :
  l !! i = Some x →
  (length (filter Q (<[i := y]> l)) + (if decide (Q x) then 1 else 0)
   = length (filter Q l) + (if decide (Q y) then 1 else 0))%nat.
Proof.
  revert i. induction l as [|a l IH]; intros [|i]; simpl; try done.
  - intros [= ->]. rewrite !filter_cons.
    destruct (decide (Q x)), (decide (Q y)); simpl; lia.
  - intros Hi. rewrite !filter_cons. specialize (IH i Hi).
    destruct (decide (Q a)); simpl; lia.
Qed.

(** X8. However the goroutines are scheduled and whatever the calls
    answer, no more than [maxConcurrency] (ten) of them are between start
    and return at any moment. *)
Theorem at_most_maxConcurrency_running `{P : UrlParse}
    (tempDir outputDir : string) (applications : list Application)
    (cs : list choice) (r : run) :
  execAll cs (runInit tempDir outputDir applications) = Some r →
  (running r ≤ maxConcurrency)%nat.
Proof.
  apply (execAll_invariant (λ r, (running r ≤ maxConcurrency)%nat));
    [|unfold running, maxConcurrency; simpl; lia].
  clear. intros [|i ans] r r' Hr He.
  - apply exec_Start_inv in He as (app & pending' & _ & Hlt & ->).
    unfold running in *. simpl. rewrite filter_app, length_app. simpl. lia.
  - apply exec_Step_inv in He as (w & w' & st' & cs & Hw & Hf & _ & ->).
    unfold running in *. simpl.
    pose proof (filter_length_insert (λ w, finished w = false)
                  (workers r) i w w' Hw) as Hl.
    rewrite decide_True in Hl by done.
    destruct (decide (finished w' = false)); lia.
Qed.

(** X8 at the racing schedule of two goroutines. *)
Lemma at_most_maxConcurrency_running_witness :
  ∃ r,
    execAll Cases.racingSchedule
      (runInit "/tmp/argo-charts-1" "rendered" [Cases.appOne; Cases.appTwo])
    = Some r
    ∧ (running r ≤ maxConcurrency)%nat.
Proof.
  eexists. split; [vm_compute; reflexivity|].
  apply (at_most_maxConcurrency_running "/tmp/argo-charts-1" "rendered"
           [Cases.appOne; Cases.appTwo] Cases.racingSchedule).
  vm_compute. reflexivity.
Defined.

(** X9. The errors in [errChan] are as many as the goroutines that
    returned an error, at every moment; so [Run] returns no error exactly
    when no goroutine failed, and the count in the error it returns is the
    number of goroutines that failed. *)
Theorem errChan_counts_failed_workers `{P : UrlParse}
    (tempDir outputDir : string) (applications : list Application)
    (cs : list choice) (r : run) :
  execAll cs (runInit tempDir outputDir applications) = Some r →
  let failed := filter (λ w, isFailed w = true) (workers r) in
  length (errChan r) = length failed
  ∧ (runResult r = None ↔ failed = [])
  ∧ (∀ count first, runResult r = Some (ProcessFailed count first) →
       count = length failed ∧ (0 < count)%nat).
Proof.
  intros He.
  assert (Hlen : length (errChan r)
                 = length (filter (λ w, isFailed w = true) (workers r))).
  { revert He.
    apply (execAll_invariant
             (λ r, length (errChan r)
                   = length (filter (λ w, isFailed w = true) (workers r))));
      [|done].
    clear. intros [|i ans] r r' Hr He.
    - apply exec_Start_inv in He as (app & pending' & _ & _ & ->). simpl.
      rewrite filter_app, length_app. simpl. lia.
    - apply exec_Step_inv in He as (w & w' & st' & cs & Hw & Hf & _ & ->).
      simpl.
      pose proof (filter_length_insert (λ w, isFailed w = true)
                    (workers r) i w w' Hw) as Hl.
      rewrite decide_False in Hl by (destruct w; done).
      destruct w'; simpl in *; rewrite ?length_app; simpl; lia. }
  intros failed. fold failed in Hlen. split; [done|].
  unfold runResult. destruct (errChan r) as [|first errs]; simpl in *.
  - split; [|done]. split; [|done]. intros _. by destruct failed.
  - split.
    + split; [done|]. intros Hnil. by rewrite Hnil in Hlen.
    + intros count first' [= <- <-]. rewrite <- Hlen. lia.
Qed.

(** X9 at a schedule in which the only goroutine fails to clone. *)
Lemma errChan_counts_failed_workers_witness :
  ∃ r,
    execAll MoreCases.failedCloneSchedule
      (runInit "/tmp/argo-charts-1" "rendered" [Cases.appOne])
    = Some r
    ∧ let failed := filter (λ w, isFailed w = true) (workers r) in
      length (errChan r) = length failed
      ∧ (runResult r = None ↔ failed = [])
      ∧ (∀ count first, runResult r = Some (ProcessFailed count first) →
           count = length failed ∧ (0 < count)%nat).
Proof.
  eexists. split; [vm_compute; reflexivity|].
  apply (errChan_counts_failed_workers "/tmp/argo-charts-1" "rendered"
           [Cases.appOne] MoreCases.failedCloneSchedule).
  vm_compute. reflexivity.
Defined.

Lemma processStep_appOf `{P : UrlParse} w ans st w' st' cs app :
  processStep w ans st = (w', st', cs) →
  appOf w' = Some app → appOf w = Some app.
Proof.
  destruct w; simpl;
    repeat match goal with
           | |- context [match ?x with _ => _ end] => destruct x
           end;
    intros [= <- <- <-]; simpl; done.
Qed.

(** X10. [Run] starts one goroutine per application, in the order of the
    list: at every moment the goroutines started are those of the first
    applications, the rest is still pending, and goroutine [i] works on
    application [i] until it returns. *)
Theorem one_goroutine_per_application `{P : UrlParse}
    (tempDir outputDir : string) (applications : list Application)
    (cs : list choice) (r : run) :
  execAll cs (runInit tempDir outputDir applications) = Some r →
  applications = (take (length (workers r)) applications ++ pending r)%list
  ∧ (length (workers r) + length (pending r) = length applications)%nat
  ∧ (∀ i w app, workers r !! i = Some w → appOf w = Some app →
       applications !! i = Some app).
Proof.
  intros He.
  assert (Hinv : ∃ started,
             applications = (started ++ pending r)%list
             ∧ length started = length (workers r)
             ∧ ∀ i w app, workers r !! i = Some w → appOf w = Some app →
                 started !! i = Some app).
  { revert He.
    apply (execAll_invariant
             (λ r, ∃ started,
                applications = (started ++ pending r)%list
                ∧ length started = length (workers r)
                ∧ ∀ i w app, workers r !! i = Some w → appOf w = Some app →
                    started !! i = Some app)).
    - clear. intros [|i ans] r r' (started & Happs & Hlen & Hw) He.
      + apply exec_Start_inv in He as (app & pending' & Hp & _ & ->). simpl.
        exists (started ++ [app])%list. rewrite Hp in Happs.
        split; [by rewrite <- app_assoc|].
        split; [rewrite !length_app; simpl; lia|].
        intros i w app' Hi Ha.
        destruct (decide (i < length (workers r))%nat) as [Hlt|Hge].
        * rewrite lookup_app_l in Hi by done.
          rewrite lookup_app_l by lia. by eapply Hw.
        * rewrite lookup_app_r in Hi by lia.
          rewrite lookup_app_r by lia. rewrite Hlen.
          destruct (i - length (workers r))%nat; simpl in *; [|done].
          injection Hi as <-. simpl in Ha. by injection Ha as <-.
      + apply exec_Step_inv in He as (w & w' & st' & cs & Hwi & _ & Hs & ->).
        simpl. exists started. split; [done|].
        split; [by rewrite length_insert|].
        intros j w0 app Hj Ha.
        destruct (decide (i = j)) as [<-|Hne].
        * rewrite list_lookup_insert_eq in Hj by (by eapply lookup_lt_Some).
          injection Hj as <-. eapply Hw; [done|].
          by eapply processStep_appOf.
        * rewrite list_lookup_insert_ne in Hj by done. by eapply Hw.
    - exists []. simpl. split; [done|]. split; [done|]. by intros []. }
  destruct Hinv as (started & Happs & Hlen & Hw).
  assert (Ht : take (length (workers r)) applications = started).
  { rewrite Happs, <- Hlen. by rewrite take_app_length. }
  split; [by rewrite Ht|]. split.
  - rewrite Happs, length_app. lia.
  - intros i w app Hi Ha. rewrite Happs.
    apply lookup_app_l_Some. by eapply Hw.
Qed.

(** X10 at the racing schedule of two goroutines. *)
Lemma one_goroutine_per_application_witness :
  ∃ r,
    execAll Cases.racingSchedule
      (runInit "/tmp/argo-charts-1" "rendered" [Cases.appOne; Cases.appTwo])
    = Some r
    ∧ [Cases.appOne; Cases.appTwo]
      = (take (length (workers r)) [Cases.appOne; Cases.appTwo]
         ++ pending r)%list
    ∧ (length (workers r) + length (pending r) = 2)%nat
    ∧ (∀ i w app, workers r !! i = Some w → appOf w = Some app →
         [Cases.appOne; Cases.appTwo] !! i = Some app).
Proof.
  eexists. split; [vm_compute; reflexivity|].
  apply (one_goroutine_per_application "/tmp/argo-charts-1" "rendered"
           [Cases.appOne; Cases.appTwo] Cases.racingSchedule).
  vm_compute. reflexivity.
Defined.

(** X11. The cache only ever holds a directory that was cloned for its
    key: at every moment, under every schedule, each entry of
    [clonedRepos] maps its key to the target directory of a clone call
    already made for that very address and revision. *)
Theorem cache_entries_were_cloned `{P : UrlParse}
    (tempDir outputDir : string) (applications : list Application)
    (cs : list choice) (r : run) :
  execAll cs (runInit tempDir outputDir applications) = Some r →
  ∀ key repoPath,
    clonedRepos (state r) !! key = Some repoPath →
    ∃ repoURL revision,
      GitClone repoURL revision repoPath (Git.cloneOptions repoURL revision)
        ∈ calls r
      ∧ key = repoURL +:+ "@" +:+ revision.
Proof.
  intros He.
  assert (Hinv :
    (∀ key repoPath,
       clonedRepos (state r) !! key = Some repoPath →
       ∃ repoURL revision,
         GitClone repoURL revision repoPath (Git.cloneOptions repoURL revision)
           ∈ calls r
         ∧ key = repoURL +:+ "@" +:+ revision)
    ∧ (∀ i app sshURL repoPath,
         workers r !! i = Some (Caching app sshURL repoPath) →
         GitClone sshURL (Application.TargetRevision app) repoPath
           (Git.cloneOptions sshURL (Application.TargetRevision app))
           ∈ calls r)); [|by destruct Hinv].
  revert He.
  apply (execAll_invariant
    (λ r,
      (∀ key repoPath,
         clonedRepos (state r) !! key = Some repoPath →
         ∃ repoURL revision,
           GitClone repoURL revision repoPath (Git.cloneOptions repoURL revision)
             ∈ calls r
           ∧ key = repoURL +:+ "@" +:+ revision)
      ∧ (∀ i app sshURL repoPath,
           workers r !! i = Some (Caching app sshURL repoPath) →
           GitClone sshURL (Application.TargetRevision app) repoPath
             (Git.cloneOptions sshURL (Application.TargetRevision app))
             ∈ calls r))).
  - clear. intros [|i ans] r r' [Hc Hw] He.
    + apply exec_Start_inv in He as (app & pending' & _ & _ & ->). simpl.
      split; [done|]. intros i app0 sshURL repoPath Hi.
      apply lookup_app_Some in Hi as [Hi|[_ Hi]]; [by eapply Hw|].
      by destruct (i - length (workers r))%nat.
    + apply exec_Step_inv in He as (w & w' & st' & cs & Hwi & _ & Hs & ->).
      simpl.
      assert (Hgrow : ∀ c, c ∈ calls r → c ∈ (calls r ++ cs)%list)
        by (intros; apply elem_of_app; by left).
      assert (Hother : ∀ j app sshURL repoPath,
                 j ≠ i →
                 <[i := w']> (workers r) !! j = Some (Caching app sshURL repoPath) →
                 GitClone sshURL (Application.TargetRevision app) repoPath
                   (Git.cloneOptions sshURL (Application.TargetRevision app))
                   ∈ (calls r ++ cs)%list).
      { intros j app sshURL repoPath Hne Hj.
        rewrite list_lookup_insert_ne in Hj by done. by eapply Hgrow, Hw. }
      assert (Hsame : ∀ app sshURL repoPath,
                 <[i := w']> (workers r) !! i = Some (Caching app sshURL repoPath) →
                 w' = Caching app sshURL repoPath).
      { intros app sshURL repoPath Hj.
        rewrite list_lookup_insert_eq in Hj by (by eapply lookup_lt_Some).
        by injection Hj. }
      destruct w; simpl in Hs;
        repeat match type of Hs with
               | context [match ?x with _ => _ end] => destruct x eqn:?
               end;
        injection Hs as <- <- <-; simpl;
        (split;
         [ intros key path Hk
         | intros j app0 sshURL0 path0 Hj;
           destruct (decide (j = i)) as [->|Hne];
           [apply Hsame in Hj; try discriminate|by eapply Hother] ]);
        try (destruct (Hc key path Hk) as (u & rev & Hin & ->);
             exists u, rev; split; [by apply Hgrow|done]).
      * (* the clone step: the call is made now *)
        injection Hj as <- <- <-. apply elem_of_app. right. by left.
      * (* the insertion *)
        destruct (decide (key = cacheKey sshURL app)) as [->|Hne].
        -- rewrite lookup_insert_eq in Hk. injection Hk as <-.
           exists sshURL, (Application.TargetRevision app). split; [|done].
           rewrite app_nil_r. by eapply Hw.
        -- rewrite lookup_insert_ne in Hk by done.
           destruct (Hc key path Hk) as (u & rev & Hin & ->).
           exists u, rev. split; [by apply Hgrow|done].
  - simpl. split; [|by intros []]. intros key path Hk.
    by rewrite lookup_empty in Hk.
Qed.

(** *** One goroutine at a time *)

Lemma clonesOf_app key cs1 cs2 :
  clonesOf key (cs1 ++ cs2) = (clonesOf key cs1 ++ clonesOf key cs2)%list.
Proof. unfold clonesOf. apply filter_app. Qed.

(** What one uninterrupted [processApplication] does to the cache and
    which clone calls it makes, in a world where clones succeed: nothing,
    or exactly one clone for a key that was not in the cache and is now. *)
Lemma processApplication_clones `{P : UrlParse} (env : world) app st w st' cs :
  clonesSucceed env →
  processApplication env app st = (w, st', cs) →
  finished w = true
  ∧ ((clonedRepos st' = clonedRepos st ∧ ∀ key, clonesOf key cs = [])
     ∨ ∃ sshURL repoPath,
         clonedRepos st !! cacheKey sshURL app = None
         ∧ clonedRepos st' = <[cacheKey sshURL app := repoPath]> (clonedRepos st)
         ∧ ∀ key, length (clonesOf key cs)
                  = if decide (key = cacheKey sshURL app) then 1%nat else 0%nat).
Proof.
  intros Henv. unfold processApplication.
  cbn [runWorker finished stepIn callOf processStep].
  destruct (convertHTTPtoSSH (Application.RepoURL app)) as [sshURL|err];
    cbn [runWorker finished stepIn callOf processStep].
  2:{ intros [= <- <- <-]. split; [done|]. left. done. }
  destruct (clonedRepos st !! cacheKey sshURL app) as [repoPath|] eqn:Hc;
    cbn [runWorker finished stepIn callOf processStep].
  - (* the key is in the cache *)
    destruct (env (HelmTemplate _));
      cbn [runWorker finished stepIn callOf processStep].
    2:{ intros [= <- <- <-]. split; [done|]. left. done. }
    destruct (env (MkdirAll _));
      cbn [runWorker finished stepIn callOf processStep].
    2:{ intros [= <- <- <-]. split; [done|]. left. done. }
    destruct (env (WriteFile _ _));
      cbn [runWorker finished stepIn callOf processStep];
      intros [= <- <- <-]; (split; [done|]); left; done.
  - (* the key is not: reserve a directory, clone, store, go on *)
    cbn [tempDir outputDir clonedRepos cloneCounter].
    set (repoPath := Filepath.Join _).
    pose proof (Henv sshURL (Application.TargetRevision app) repoPath
                  (Git.cloneOptions sshURL (Application.TargetRevision app)))
      as Hok.
    destruct (env (GitClone _ _ _ _)); [|done].
    cbn [runWorker finished stepIn callOf processStep
         tempDir outputDir clonedRepos cloneCounter].
    assert (Hone : ∀ key tail,
              (∀ k, clonesOf k tail = []) →
              length (clonesOf key
                (GitClone sshURL (Application.TargetRevision app) repoPath
                   (Git.cloneOptions sshURL (Application.TargetRevision app))
                 :: tail))
              = if decide (key = cacheKey sshURL app) then 1%nat else 0%nat).
    { intros key tail Htail. unfold clonesOf in *. rewrite filter_cons, Htail.
      unfold isCloneOf at 1.
      change (sshURL +:+ "@" +:+ Application.TargetRevision app)
        with (cacheKey sshURL app).
      destruct (decide (key = cacheKey sshURL app)) as [->|Hne].
      - case_decide as Hd; [done|]. exfalso. apply Hd, String.eqb_refl.
      - case_decide as Hd; [|done]. exfalso. apply Hne.
        symmetry. by apply String.eqb_eq. }
    destruct (env (HelmTemplate _));
      cbn [runWorker finished stepIn callOf processStep].
    2:{ intros [= <- <- <-]. split; [done|]. right.
        exists sshURL, repoPath. split; [done|]. split; [done|].
        intros key. apply Hone. done. }
    destruct (env (MkdirAll _));
      cbn [runWorker finished stepIn callOf processStep].
    2:{ intros [= <- <- <-]. split; [done|]. right.
        exists sshURL, repoPath. split; [done|]. split; [done|].
        intros key. apply Hone. done. }
    destruct (env (WriteFile _ _));
      cbn [runWorker finished stepIn callOf processStep];
      intros [= <- <- <-]; (split; [done|]); right;
      exists sshURL, repoPath; (split; [done|]); (split; [done|]);
      intros key; apply Hone; done.
Qed.

Lemma processEach_clones `{P : UrlParse} (env : world) apps st st' cs errs :
  clonesSucceed env →
  processEach env apps st = (st', cs, errs) →
  ∀ key,
    (is_Some (clonedRepos st !! key) →
       length (clonesOf key cs) = 0%nat ∧ is_Some (clonedRepos st' !! key))
    ∧ (clonedRepos st !! key = None →
         (length (clonesOf key cs) ≤ 1)%nat
         ∧ (length (clonesOf key cs) = 1%nat
            ↔ is_Some (clonedRepos st' !! key))).
Proof.
  intros Henv. revert st st' cs errs.
  induction apps as [|app apps IH]; intros st st' cs errs; simpl.
  - intros [= <- <- <-] key. split; [done|]. intros Hn. simpl.
    split; [lia|]. rewrite Hn. split; [done|]. by intros [? ?].
  - destruct (processApplication env app st) as [[w st1] cs1] eqn:Hw.
    destruct (processEach env apps st1) as [[st2 cs2] errs2] eqn:He.
    intros [= <- <- <-] key.
    specialize (IH _ _ _ _ He key) as [IHs IHn].
    apply (processApplication_clones env) in Hw as [_ Hw]; [|done].
    rewrite clonesOf_app, length_app.
    destruct Hw as [[Hsame Hnone]|(sshURL & repoPath & Hfresh & Hins & Hcount)].
    + rewrite Hnone, Hsame in *. simpl. done.
    + rewrite Hcount. rewrite Hins in IHs, IHn.
      destruct (decide (key = cacheKey sshURL app)) as [->|Hne].
      * rewrite lookup_insert_eq in IHs.
        destruct IHs as [Hz Hin]; [done|]. rewrite Hz.
        split; [by rewrite Hfresh; intros [? ?]|].
        intros _. split; [lia|]. done.
      * rewrite lookup_insert_ne in IHs, IHn by done. simpl. done.
Qed.

(** X12. When the applications are processed one after the other, each
    [processApplication] returning before the next is called, and every
    clone succeeds, no cache key is cloned twice, and the keys in the
    cache at the end are exactly the keys that were cloned. *)
Theorem sequential_run_clones_once `{P : UrlParse} (env : world)
    (tempDir outputDir : string) (applications : list Application)
    (st : appState) (cs : list call) (errs : list error) :
  clonesSucceed env →
  processEach env applications (state (runInit tempDir outputDir applications))
  = (st, cs, errs) →
  ∀ key,
    (length (clonesOf key cs) ≤ 1)%nat
    ∧ (length (clonesOf key cs) = 1%nat ↔ is_Some (clonedRepos st !! key)).
Proof.
  intros Henv He key.
  apply (processEach_clones env _ _ _ _ _ Henv He key). apply lookup_empty.
Qed.

(** X13. A clone that fails: the goroutine returns the clone error with
    the cause, makes no call after the clone, and stores nothing in the
    cache, so that the key stays absent; the directory number it took is
    used up. *)
Theorem failed_clone_is_not_cached `{P : UrlParse} (env : world)
    (app : Application) (st : appState) (sshURL cause : string) :
  let repoPath :=
    Filepath.Join [tempDir st; "clone-" +:+ pretty (cloneCounter st + 1)] in
  let clone :=
    GitClone sshURL (Application.TargetRevision app) repoPath
      (Git.cloneOptions sshURL (Application.TargetRevision app)) in
  convertHTTPtoSSH (Application.RepoURL app) = Ok sshURL →
  clonedRepos st !! cacheKey sshURL app = None →
  env clone = Err cause →
  ∃ st',
    processApplication env app st = (Failed (CloneFailed cause), st', [clone])
    ∧ clonedRepos st' = clonedRepos st
    ∧ cloneCounter st' = cloneCounter st + 1.
Proof.
  intros repoPath clone Hconv Hc Henv. unfold processApplication.
  cbn [runWorker finished stepIn callOf processStep]. rewrite Hconv.
  cbn [runWorker finished stepIn callOf processStep]. rewrite Hc.
  cbn [runWorker finished stepIn callOf processStep
       tempDir outputDir clonedRepos cloneCounter].
  fold repoPath. fold clone. rewrite Henv.
  cbn [runWorker finished stepIn callOf processStep]. by eexists.
Qed.

(** X13 for [Cases.appOne] on a fresh state, in a world where every call
    fails. *)
Lemma failed_clone_is_not_cached_witness :
  ∃ st',
    processApplication MoreCases.allFail Cases.appOne MoreCases.freshState
    = (Failed (CloneFailed "failed"), st',
       [GitClone "git@git.example.com:org/repo" "main"
          (Filepath.Join ["/tmp/argo-charts-1"; "clone-" +:+ pretty (0 + 1)])
          (Git.cloneOptions "git@git.example.com:org/repo" "main")])
    ∧ clonedRepos st' = clonedRepos MoreCases.freshState
    ∧ cloneCounter st' = 0 + 1.
Proof.
  apply (failed_clone_is_not_cached MoreCases.allFail Cases.appOne
           MoreCases.freshState "git@git.example.com:org/repo" "failed").
  - vm_compute. reflexivity.
  - vm_compute. reflexivity.
  - reflexivity.
Defined.



(** X12 at the two descriptors of one key, every call succeeding. *)
Lemma sequential_run_clones_once_witness :
  ∃ st cs errs,
    processEach MoreCases.allSucceed [Cases.appOne; Cases.appTwo]
      (state (runInit "/tmp/argo-charts-1" "rendered"
                [Cases.appOne; Cases.appTwo]))
    = (st, cs, errs)
    ∧ ∀ key,
        (length (clonesOf key cs) ≤ 1)%nat
        ∧ (length (clonesOf key cs) = 1%nat
           ↔ is_Some (clonedRepos st !! key)).
Proof.
  eexists _, _, _. split; [vm_compute; reflexivity|].
  eapply (sequential_run_clones_once MoreCases.allSucceed
            "/tmp/argo-charts-1" "rendered" [Cases.appOne; Cases.appTwo]).
  - intros ????. exact I.
  - vm_compute. reflexivity.
Defined.

(** X11 at the racing schedule of two goroutines. *)
Lemma cache_entries_were_cloned_witness :
  ∃ r,
    execAll Cases.racingSchedule
      (runInit "/tmp/argo-charts-1" "rendered" [Cases.appOne; Cases.appTwo])
    = Some r
    ∧ ∀ key repoPath,
        clonedRepos (state r) !! key = Some repoPath →
        ∃ repoURL revision,
          GitClone repoURL revision repoPath (Git.cloneOptions repoURL revision)
            ∈ calls r
          ∧ key = repoURL +:+ "@" +:+ revision.
Proof.
  eexists. split; [vm_compute; reflexivity|].
  apply (cache_entries_were_cloned "/tmp/argo-charts-1" "rendered"
           [Cases.appOne; Cases.appTwo] Cases.racingSchedule).
  vm_compute. reflexivity.
Defined.

(** X5 at two Applications with a ConfigMap between them. *)
Lemma ParseApplications_names_witness :
  ∃ apps,
    ParseApplications (Ok <$> MoreCases.mixedDocuments) = (apps, None)
    ∧ length apps = 2%nat
    ∧ Application.Name <$> apps = ["test-app"; "svc"]
    ∧ Application.TargetRevision <$> apps = ["main"; ""].
Proof.
  eexists. split; [vm_compute; reflexivity|].
  apply (ParseApplications_names MoreCases.mixedDocuments).
  vm_compute. reflexivity.
Defined.

(** X15. The order in which the indexed values-file variables are given
    does not matter when their indices are pairwise distinct: two
    documents whose plugin environments are rearrangements of each other
    resolve to the same [ValuesFiles], whichever algorithm [sort.Slice]
    runs. *)
Theorem valuesFiles_independent_of_input_order
    `{S1 : SliceSort} `{S2 : SliceSort}
    (HS1 : SliceSortSpec S1) (HS2 : SliceSortSpec S2)
    (raw1 raw2 : rawApplication) (app1 app2 : Application) :
  Spec.pluginEnvOf raw1 ≡ₚ Spec.pluginEnvOf raw2 →
  NoDup (index <$> omap Spec.indexedValueOf (Spec.pluginEnvOf raw1)) →
  @newApplicationFromRaw S1 raw1 = Ok app1 →
  @newApplicationFromRaw S2 raw2 = Ok app2 →
  Application.ValuesFiles app1 = Application.ValuesFiles app2.
Proof.
  intros Hperm Hnd (_ & _ & _ & ->)%newApplicationFromRaw_Ok
    (_ & _ & _ & ->)%newApplicationFromRaw_Ok.
  simpl. rewrite !envLoopRun_indexed. f_equal.
  apply (sorted_rearrangement_unique index
           (omap Spec.indexedValueOf (Spec.pluginEnvOf raw1))); try done.
  - apply (@Slice_perm S1 HS1).
  - apply (@Slice_sorted S1 HS1).
  - rewrite (@Slice_perm S2 HS2). by rewrite Hperm.
  - apply (@Slice_sorted S2 HS2).
Qed.

(** X15 at the test's values files in two orders, one sorted by insertion
    sort and one by the sort that reads the slice backwards. *)
Lemma valuesFiles_independent_of_input_order_witness :
  Application.ValuesFiles MoreCases.valuesApp
  = Application.ValuesFiles MoreCases.valuesApp.
Proof.
  apply (valuesFiles_independent_of_input_order
           insertionSlice_spec reversingSlice_spec
           Cases.valuesRaw MoreCases.valuesReorderedRaw
           MoreCases.valuesApp MoreCases.valuesApp).
  - apply perm_swap.
  - apply (bool_decide_unpack (NoDup _)). vm_compute. exact I.
  - vm_compute. reflexivity.
  - vm_compute. reflexivity.
Defined.

(** *** Plain addresses through [url.Parse] *)

Lemma append_cons (c : ascii) (s t : string) :
  String c s +:+ t = String c (s +:+ t).
Proof. reflexivity. Qed.

Lemma append_nil (t : string) : "" +:+ t = t.
Proof. reflexivity. Qed.

Lemma hostByte_facts c :
  hostByte c = true →
  Url.shouldEscapeHost c = false
  ∧ (Url.byte c <? 32)%N = false ∧ (Url.byte c =? 127)%N = false
  ∧ Ascii.eqb c "%" = false ∧ Ascii.eqb c "#" = false
  ∧ Ascii.eqb c "?" = false ∧ Ascii.eqb c "/" = false
  ∧ Ascii.eqb c "@" = false ∧ Ascii.eqb c ":" = false
  ∧ Ascii.eqb c "[" = false.
Proof.
  destruct c as [[] [] [] [] [] [] [] []]; vm_compute; intros; try done;
    repeat split; done.
Qed.

Lemma pathByte_facts c :
  pathByte c = true →
  (Url.byte c <? 32)%N = false ∧ (Url.byte c =? 127)%N = false
  ∧ Ascii.eqb c "%" = false ∧ Ascii.eqb c "#" = false
  ∧ Ascii.eqb c "?" = false.
Proof.
  destruct c as [[] [] [] [] [] [] [] []]; vm_compute; intros; try done;
    repeat split; done.
Qed.

Lemma plainHost_cons c s :
  plainHost (String c s) = true ↔ hostByte c = true ∧ plainHost s = true.
Proof. unfold plainHost. simpl. apply andb_true_iff. Qed.

Lemma plainPath_cons c s :
  plainPath (String c s) = true ↔ pathByte c = true ∧ plainPath s = true.
Proof. unfold plainPath. simpl. apply andb_true_iff. Qed.

Lemma ContainsByte_append s t c :
  Strings.ContainsByte (s +:+ t) c
  = Strings.ContainsByte s c || Strings.ContainsByte t c.
Proof.
  induction s as [|d s IH]; [done|].
  rewrite append_cons. simpl. by destruct (Ascii.eqb d c).
Qed.

Lemma CTL_append s t :
  Url.stringContainsCTLByte (s +:+ t)
  = Url.stringContainsCTLByte s || Url.stringContainsCTLByte t.
Proof.
  induction s as [|d s IH]; [done|].
  rewrite append_cons. simpl. rewrite IH. by rewrite !orb_assoc.
Qed.

Lemma LastIndexByte_absent s c :
  Strings.ContainsByte s c = false → Strings.LastIndexByte s c = None.
Proof.
  induction s as [|d s IH]; simpl; [done|].
  destruct (Ascii.eqb d c); [done|]. intros Hs. by rewrite IH.
Qed.

Lemma take_length_append s t : Strings.take (String.length s) (s +:+ t) = s.
Proof.
  induction s as [|d s IH]; [by destruct t|].
  rewrite append_cons. simpl. by rewrite IH.
Qed.

Lemma drop_length_append s t : Strings.drop (String.length s) (s +:+ t) = t.
Proof. induction s as [|d s IH]; [done|]. by rewrite append_cons. Qed.

Lemma Index_slash s t :
  Strings.ContainsByte s "/" = false →
  Strings.Index (s +:+ String "/" t) "/" = Some (String.length s).
Proof.
  induction s as [|d s IH].
  - intros _. rewrite append_nil. by destruct t.
  - rewrite append_cons. cbn [Strings.ContainsByte Strings.Index Strings.HasPrefix].
    rewrite (Ascii.eqb_sym "/" d).
    destruct (Ascii.eqb d "/"); [done|]. intros Hs. rewrite IH by done. done.
Qed.

Lemma plainHost_absent host c :
  plainHost host = true → hostByte c = false →
  Strings.ContainsByte host c = false.
Proof.
  intros Hh Hc. induction host as [|d host IH]; [done|].
  apply plainHost_cons in Hh as [Hd Hh]. simpl.
  destruct (Ascii.eqb_spec d c) as [->|_]; [congruence|]. by apply IH.
Qed.

Lemma plainPath_absent path c :
  plainPath path = true → pathByte c = false →
  Strings.ContainsByte path c = false.
Proof.
  intros Hh Hc. induction path as [|d path IH]; [done|].
  apply plainPath_cons in Hh as [Hd Hh]. simpl.
  destruct (Ascii.eqb_spec d c) as [->|_]; [congruence|]. by apply IH.
Qed.

Lemma plainHost_CTL host :
  plainHost host = true → Url.stringContainsCTLByte host = false.
Proof.
  induction host as [|d host IH]; [done|].
  intros [Hd Hh]%plainHost_cons. simpl.
  destruct (hostByte_facts d Hd) as (_ & -> & -> & _). by apply IH.
Qed.

Lemma plainPath_CTL path :
  plainPath path = true → Url.stringContainsCTLByte path = false.
Proof.
  induction path as [|d path IH]; [done|].
  intros [Hd Hh]%plainPath_cons. simpl.
  destruct (pathByte_facts d Hd) as (-> & -> & _). by apply IH.
Qed.

Lemma plainHost_unescape host :
  plainHost host = true → Url.unescape host Url.encodeHost = Ok host.
Proof.
  induction host as [|d host IH]; [done|].
  intros [Hd Hh]%plainHost_cons. simpl.
  destruct (hostByte_facts d Hd) as (-> & _ & _ & -> & _).
  rewrite andb_false_r. by rewrite IH.
Qed.

Lemma plainPath_unescape path :
  plainPath path = true → Url.unescape path Url.encodePath = Ok path.
Proof.
  induction path as [|d path IH]; [done|].
  intros [Hd Hh]%plainPath_cons. simpl.
  destruct (pathByte_facts d Hd) as (_ & _ & -> & _). by rewrite IH.
Qed.

Lemma plainHost_parseHost host :
  plainHost host = true → Url.parseHost host = Ok host.
Proof.
  intros Hh. unfold Url.parseHost.
  assert (Hb : Strings.HasPrefix host "[" = false).
  { destruct host as [|d host]; [done|].
    apply plainHost_cons in Hh as [Hd _]. cbn [Strings.HasPrefix].
    destruct (hostByte_facts d Hd) as (_ & _ & _ & _ & _ & _ & _ & _ & _ & Hx).
    rewrite Ascii.eqb_sym. by rewrite Hx. }
  rewrite Hb, LastIndexByte_absent by (by apply plainHost_absent).
  by apply plainHost_unescape.
Qed.

Lemma plainHost_parseAuthority host :
  plainHost host = true → Url.parseAuthority host = Ok host.
Proof.
  intros Hh. unfold Url.parseAuthority.
  rewrite LastIndexByte_absent by (by apply plainHost_absent).
  by apply plainHost_parseHost.
Qed.

Lemma plain_rest_absent host path c :
  plainHost host = true → plainPath path = true →
  hostByte c = false → pathByte c = false →
  Strings.ContainsByte (host +:+ String "/" path) c = false.
Proof.
  intros Hh Hp Hc1 Hc2. rewrite ContainsByte_append.
  rewrite (plainHost_absent host c) by done. cbn [Strings.ContainsByte orb].
  destruct (Ascii.eqb_spec "/" c) as [<-|_]; [done|].
  by apply plainPath_absent.
Qed.

Lemma plain_rest_CTL host path :
  plainHost host = true → plainPath path = true →
  Url.stringContainsCTLByte (host +:+ String "/" path) = false.
Proof.
  intros Hh Hp. rewrite CTL_append, plainHost_CTL by done.
  cbn [Url.stringContainsCTLByte orb].
  rewrite plainPath_CTL by done. reflexivity.
Qed.

(** The tail of [parse] once the scheme is split off a plain address. *)
Lemma parse_plain_authority host path :
  plainHost host = true → plainPath path = true →
  let authority := host +:+ String "/" path in
  (let '(authority, rest) :=
     match Strings.Index authority "/" with
     | Some i => (Strings.take i authority, Strings.drop i authority)
     | None => (authority, EmptyString)
     end in
   host' ← Url.parseAuthority authority;
   path' ← Url.unescape rest Url.encodePath;
   Ok (host', path'))
  = Ok (host, String "/" path).
Proof.
  intros Hh Hp authority. unfold authority.
  rewrite Index_slash by (by apply plainHost_absent).
  rewrite take_length_append, drop_length_append.
  rewrite plainHost_parseAuthority by done.
  assert (Hp' : plainPath (String "/" path) = true)
    by (by apply plainPath_cons).
  unfold mbind, result_bind. by rewrite (plainPath_unescape _ Hp').
Qed.

Lemma HasPrefix_nil s : Strings.HasPrefix s "" = true.
Proof. by destruct s. Qed.

Lemma parse_plain scheme rawURL host path :
  Url.stringContainsCTLByte rawURL = false →
  String.eqb rawURL "*" = false →
  Url.getScheme rawURL
  = Ok (scheme, String "/" (String "/" (host +:+ String "/" path))) →
  Strings.ToLower scheme = scheme →
  String.eqb scheme "" = false →
  plainHost host = true → plainPath path = true →
  Url.parse rawURL
  = Ok {| Url.Scheme := scheme; Url.Opaque := ""; Url.Host := host;
          Url.Path := String "/" path |}.
Proof.
  intros Hctl Hstar Hs Hlow Hne Hh Hp. unfold Url.parse.
  rewrite Hctl, Hstar, Hs. unfold mbind at 1, result_bind at 1.
  cbn [fst snd]. rewrite Hlow, Hne.
  rewrite Cut_absent.
  2:{ cbn [Strings.ContainsByte].
      rewrite (plain_rest_absent host path "?") by done. reflexivity. }
  cbn [fst snd Strings.HasPrefix].
  change (Ascii.eqb "/" "/") with true. cbn iota.
  cbn [negb andb orb Strings.drop]. rewrite HasPrefix_nil.
  pose proof (parse_plain_authority host path Hh Hp) as Ha. cbn zeta in Ha.
  destruct (Strings.Index (host +:+ String "/" path) "/") as [i|];
    destruct (Url.parseAuthority _) as [host'|];
    unfold mbind, result_bind in *; try discriminate;
    destruct (Url.unescape _ Url.encodePath) as [path'|]; try discriminate;
    by injection Ha as -> ->.
Qed.

Lemma Parse_plain (prefix scheme host path : string) :
  Strings.ContainsByte prefix "#" = false →
  Url.stringContainsCTLByte prefix = false →
  (∀ rest, String.eqb (prefix +:+ rest) "*" = false) →
  (∀ rest, Url.getScheme (prefix +:+ rest)
           = Ok (scheme, String "/" (String "/" rest))) →
  Strings.ToLower scheme = scheme →
  String.eqb scheme "" = false →
  plainHost host = true → plainPath path = true →
  Url.Parse (prefix +:+ host +:+ "/" +:+ path)
  = Ok {| Url.Scheme := scheme; Url.Opaque := ""; Url.Host := host;
          Url.Path := "/" +:+ path |}.
Proof.
  intros Hhash Hctl Hstar Hs Hlow Hne Hh Hp.
  change ("/" +:+ path) with (String "/" path).
  unfold Url.Parse. rewrite Cut_absent.
  2:{ rewrite ContainsByte_append, Hhash.
      by rewrite (plain_rest_absent host path "#"). }
  rewrite (parse_plain scheme _ host path); try done.
  rewrite CTL_append, Hctl. by rewrite plain_rest_CTL.
Qed.

Lemma Parse_https_plain host path :
  plainHost host = true → plainPath path = true →
  Url.Parse ("https://" +:+ host +:+ "/" +:+ path)
  = Ok {| Url.Scheme := "https"; Url.Opaque := ""; Url.Host := host;
          Url.Path := "/" +:+ path |}.
Proof. apply Parse_plain; done. Qed.

Lemma Parse_http_plain host path :
  plainHost host = true → plainPath path = true →
  Url.Parse ("http://" +:+ host +:+ "/" +:+ path)
  = Ok {| Url.Scheme := "http"; Url.Opaque := ""; Url.Host := host;
          Url.Path := "/" +:+ path |}.
Proof. apply Parse_plain; done. Qed.

Lemma TrimPrefix_slash path : Strings.TrimPrefix ("/" +:+ path) "/" = path.
Proof.
  unfold Strings.TrimPrefix. change ("/" +:+ path) with (String "/" path).
  cbn [Strings.HasPrefix]. change (Ascii.eqb "/" "/") with true. cbn iota.
  by rewrite HasPrefix_nil.
Qed.

(** X16. The https address, the http address and the ssh address of one
    repository normalize to the same string, [git@<host>:<path>], for a
    host name of letters, digits, [-] and [.] and a path of letters,
    digits and [-._~/]; descriptors that name the repository in these
    three ways therefore share their cache key for a given revision. *)
Theorem plain_addresses_normalize_alike (host path : string) :
  plainHost host = true → plainPath path = true →
  let sshURL := "git@" +:+ host +:+ ":" +:+ path in
  convertHTTPtoSSH ("https://" +:+ host +:+ "/" +:+ path) = Ok sshURL
  ∧ convertHTTPtoSSH ("http://" +:+ host +:+ "/" +:+ path) = Ok sshURL
  ∧ convertHTTPtoSSH sshURL = Ok sshURL.
Proof.
  intros Hh Hp sshURL. unfold convertHTTPtoSSH, url_Parse, netURL.
  split; [|split].
  - change (Strings.HasPrefix ("https://" +:+ host +:+ "/" +:+ path) "git@")
      with false.
    rewrite Parse_https_plain by done. cbn [Url.Scheme Url.Host Url.Path].
    change (negb ("https" =? "https")%string) with false. cbn [andb].
    by rewrite TrimPrefix_slash.
  - change (Strings.HasPrefix ("http://" +:+ host +:+ "/" +:+ path) "git@")
      with false.
    rewrite Parse_http_plain by done. cbn [Url.Scheme Url.Host Url.Path].
    change (negb ("http" =? "https")%string && negb ("http" =? "http")%string)
      with false.
    by rewrite TrimPrefix_slash.
  - unfold sshURL. by rewrite HasPrefix_append.
Qed.

(** X16 at [git.example.com] and [org/repo]. *)
Lemma plain_addresses_normalize_alike_witness :
  let sshURL := "git@" +:+ "git.example.com" +:+ ":" +:+ "org/repo" in
  convertHTTPtoSSH ("https://" +:+ "git.example.com" +:+ "/" +:+ "org/repo")
  = Ok sshURL
  ∧ convertHTTPtoSSH ("http://" +:+ "git.example.com" +:+ "/" +:+ "org/repo")
    = Ok sshURL
  ∧ convertHTTPtoSSH sshURL = Ok sshURL.
Proof.
  apply (plain_addresses_normalize_alike "git.example.com" "org/repo");
    reflexivity.
Defined.
